(** * A chained hash table: [HashMap<K,V>] of hashmap.h

    Shallow embedding of the C++ class template [HashMap] and of its
    [Iterator], followed by the properties of its operations.

    Modelling conventions.
    - [std::vector<T>] is a [list]; [v[i]] is a partial lookup, and an index
      past the end is undefined behaviour, reported as [Undefined].
    - [size_t] is [nat].  A vector never holds [2^63] elements, so the
      additions and the doubling of the source do not wrap and are taken on
      unbounded naturals; [entry_count--] wraps at zero as in the source.
    - A finite [float] or [double] is the rational of [Q] it stands for,
      and the two special results a division of the source can give
      (infinity, not-a-number) are separate constructors.  [load_factor]
      rounds as the source does: the quotient to the 53 bits of a [double],
      the result to the 24 bits of the [float] it returns, to nearest and
      to even on a tie.  The exponent of a rounded value is unbounded, as
      [size_t] is: the quotient of two [size_t] values lies where both
      formats have their full precision.  The conversion of a [size_t] to
      [double] is taken exact, as it is below [2^53], and so is the
      quotient [rehash] rounds up to a whole number.
    - An [Entry*] owned by a bucket is the slot (bucket index, position) it
      is stored in; the table owns every entry exactly once, and entries are
      held by value.
    - [operator==] on keys is a decidable equality, [std::hash<K>] an
      instance of the class [Hash]; equal keys have equal hashes.
    - A C++ exception is [Throw]; undefined behaviour is [Undefined].  An
      exception of a member function that may change the table comes with
      the table it leaves.
    - A [const] member function reads the table; any other member function is
      a state transformer in the monad [M].
    - [Const_Iterator] repeats [Iterator] word for word and is not
      duplicated; [max_size] and the destructor take no part in the
      properties below and are left out. *)

From Stdlib Require Import QArith Qround Qpower Lqa.
From stdpp Require Import base list strings.

(** ** Results of running a member function *)

Inductive exception : Type :=
  | invalid_argument (what : string)
  | out_of_range (what : string).

Inductive undefined_behaviour : Type :=
  | division_by_zero          (* [x % 0] on [size_t] *)
  | index_out_of_bounds       (* [v[i]] with [i >= v.size()] *)
  | float_to_size_t.          (* conversion of a value [size_t] cannot hold *)

(** How a call ends: with a value, with what a [throw] leaves behind, or
    in undefined behaviour. *)
Inductive completion (E A : Type) : Type :=
  | Ok (a : A)
  | Throw (e : E)
  | Undefined (u : undefined_behaviour).
Arguments Ok {E A} a.
Arguments Throw {E A} e.
Arguments Undefined {E A} u.

#[global] Instance completion_ret E : MRet (completion E) := @Ok E.
#[global] Instance completion_bind E : MBind (completion E) := λ A B f c,
  match c with
  | Ok a => f a
  | Throw e => Throw e
  | Undefined u => Undefined u
  end.

(** A call that leaves the table as it is ends with a value or with an
    exception. *)
Abbreviation outcome := (completion exception).

(** [v[i]] on a vector. *)
Definition index {A} (v : list A) (i : nat) : outcome A :=
  match v !! i with
  | Some x => Ok x
  | None => Undefined index_out_of_bounds
  end.

(** ** Floating-point values, taken exact *)

Inductive real : Type :=
  | Finite (q : Q)
  | Infinity          (* the sign is not tracked: see [fdiv] *)
  | NaN.

Definition Qlt_bool (x y : Q) : bool := negb (Qle_bool y x).

(** [x / y] on doubles, before the result is rounded.  The numerator is
    always a converted [size_t], so it is never negative; a zero divisor
    gives not-a-number for a zero numerator and an infinity otherwise. *)
Definition fdiv (x y : Q) : real :=
  if Qeq_bool y 0 then (if Qeq_bool x 0 then NaN else Infinity)
  else Finite (x / y).

(** [x > y], for a finite [y]; the infinity compared here is the positive
    one, the load factor of a table with entries and no bucket. *)
Definition fgt (x : real) (y : Q) : bool :=
  match x with
  | Finite q => Qlt_bool y q
  | Infinity => true
  | NaN => false
  end.

(** [std::ceil] *)
Definition ceil (x : real) : real :=
  match x with
  | Finite q => Finite (inject_Z (Qceiling q))
  | Infinity => Infinity
  | NaN => NaN
  end.

(** [static_cast<size_t>(x)]: truncation toward zero; undefined when the
    truncated value is not a [size_t]. *)
Definition to_size_t (x : real) : outcome nat :=
  match x with
  | Finite q =>
      let z := Z.quot (Qnum q) (Z.pos (Qden q)) in
      if (z <? 0)%Z then Undefined float_to_size_t else Ok (Z.to_nat z)
  | Infinity | NaN => Undefined float_to_size_t
  end.

(** [static_cast<double>(n)] for a [size_t]. *)
Definition of_size_t (n : nat) : Q := inject_Z (Z.of_nat n).

(** *** Rounding *)

(** The whole number nearest to [x], the even one of the two when [x] lies
    half way. *)
Definition rne (x : Q) : Z :=
  let f := Qfloor x in
  match Qcompare (x - inject_Z f) (1 # 2) with
  | Lt => f
  | Gt => (f + 1)%Z
  | Eq => if Z.even f then f else (f + 1)%Z
  end.

(** The exponent of a strictly positive [q]: the [e] with
    [2^e <= q < 2^(e+1)]. *)
Definition ilog2 (q : Q) : Z :=
  if Qle_bool 1 q then Z.log2 (Qfloor q)
  else (- Z.log2_up (Qceiling (/ q)))%Z.

(** A strictly positive [q] rounded to a significand of [p] bits. *)
Definition round_pos (p : Z) (q : Q) : Q :=
  let e := (ilog2 q - (p - 1))%Z in
  (inject_Z (rne (q / 2 ^ e)) * 2 ^ e)%Q.

(** [q] rounded to a significand of [p] bits. *)
Definition round (p : Z) (q : Q) : Q :=
  match Qcompare q 0 with
  | Eq => 0%Q
  | Gt => round_pos p q
  | Lt => (- round_pos p (- q))%Q
  end.

Arguments rne : simpl never.
Arguments ilog2 : simpl never.
Arguments round_pos : simpl never.
Arguments round : simpl never.

(** The result of an operation on doubles, which has 53 bits. *)
Definition to_double (x : real) : real :=
  match x with
  | Finite q => Finite (round 53 q)
  | Infinity => Infinity
  | NaN => NaN
  end.

(** The conversion of a [double] to [float], which has 24 bits. *)
Definition to_float (x : real) : real :=
  match x with
  | Finite q => Finite (round 24 q)
  | Infinity => Infinity
  | NaN => NaN
  end.

(** The rational is the value of a [float]. *)
Definition is_float (q : Q) : Prop := (round 24 (round 53 q) == q)%Q.

(** [SIZE_MAX], the value [entry_count--] gives at zero. *)
Definition SIZE_MAX : nat := Z.to_nat (2 ^ 64 - 1).

Definition decr (n : nat) : nat :=
  match n with
  | O => SIZE_MAX
  | S m => m
  end.

(** ** Cursors *)

(** The address of a table, what [this] and [Iterator::map] hold. *)
Definition ptr := nat.

Record Iterator : Type := mkIterator {
  map : option ptr;          (* [None] is [nullptr] *)
  bucket_idx : nat;
  entry_idx : nat
}.

#[global] Instance Iterator_eq_dec : EqDecision Iterator.
Proof. solve_decision. Defined.

(** [Iterator::operator==] *)
Definition Iterator_eqb (a b : Iterator) : bool :=
  bool_decide (map a = map b) && (bucket_idx a =? bucket_idx b)
  && (entry_idx a =? entry_idx b).

(** [Iterator()] *)
Definition Iterator_null : Iterator := mkIterator None 0 0.

(** ** Hashing *)

(** The specialisation [std::hash<K>] the table is instantiated with. *)
Class Hash (K : Type) : Type := hash : K → nat.

(** The value [V{}] that [operator[]] stores for a new key. *)
Class Value_init (V : Type) : Type := value_init : V.

(** ** The class template *)

Section HashMap.
Context {K V : Type} `{EqDecision K} {hash_K : Hash K}.

Record Entry : Type := mkEntry { key : K; value : V }.

Record HashMap : Type := mkHashMap {
  buckets : list (list Entry);
  bucket_count : nat;
  entry_count : nat;
  max_load_factor : Q
}.

(** The slot an [Entry*] points into. *)
Definition Entry_ptr : Type := nat * nat.

(** *** The state monad of the non-[const] member functions *)

(** A call ends with a value and a table, or with an exception and the
    table the exception leaves. *)
Definition M (A : Type) : Type :=
  HashMap → completion (exception * HashMap) (A * HashMap).

#[export] Instance M_ret : MRet M := λ A a t, Ok (a, t).
#[export] Instance M_bind : MBind M := λ A B f c t,
  match c t with
  | Ok (a, t') => f a t'
  | Throw et => Throw et
  | Undefined u => Undefined u
  end.

Definition get : M HashMap := λ t, Ok (t, t).
Definition put (t' : HashMap) : M unit := λ _, Ok (tt, t').
Definition throw {A} (e : exception) : M A := λ t, Throw (e, t).
(** A call of a [const] member function, or any read of the table. *)
Definition read {A} (c : HashMap → outcome A) : M A := λ t,
  match c t with
  | Ok a => Ok (a, t)
  | Throw e => Throw (e, t)
  | Undefined u => Undefined u
  end.

(** A range-based [for] loop. *)
Fixpoint for_each {A} (l : list A) (body : A → M unit) : M unit :=
  match l with
  | [] => mret tt
  | x :: l' => (_ ← body x; for_each l' body) : M unit
  end.

(** *** Constructors *)

Definition default_max_load_factor : Q := 3 # 4.

(** [HashMap()] *)
Definition HashMap_default : HashMap :=
  mkHashMap (replicate 32 []) 32 0 default_max_load_factor.

(** [HashMap(size_t cap)] *)
Definition HashMap_cap (cap : nat) : outcome HashMap :=
  let t := mkHashMap (replicate cap []) cap 0 default_max_load_factor in
  if bucket_count t =? 0
  then Throw (invalid_argument "HashMap: capacity must be > 0")
  else Ok t.

(** [HashMap(size_t cap, float mlf)] *)
Definition HashMap_cap_mlf (cap : nat) (mlf : Q) : outcome HashMap :=
  let t := mkHashMap (replicate cap []) cap 0 mlf in
  if bucket_count t =? 0
  then Throw (invalid_argument "HashMap: capacity must be > 0")
  else if Qle_bool (max_load_factor t) 0
  then Throw (invalid_argument "HashMap: max_load_factor must be positive")
  else Ok t.

(** *** Helper functions *)

(** [hash_func]: the remainder by a zero [bucket_count] is undefined. *)
Definition hash_func (k : K) (t : HashMap) : outcome nat :=
  if bucket_count t =? 0 then Undefined division_by_zero
  else Ok (hash k mod bucket_count t).

(** [find_entry], both overloads: the first entry of the key's bucket
    whose key is equal to the given one, [None] for [nullptr]. *)
Definition find_entry (k : K) (t : HashMap) : outcome (option Entry_ptr) :=
  idx ← hash_func k t;
  b ← index (buckets t) idx;
  mret (match list_find (λ e, key e = k) b with
        | Some (i, _) => Some (idx, i)
        | None => None
        end).

(** [*e] for an [Entry*]. *)
Definition load (p : Entry_ptr) (t : HashMap) : outcome Entry :=
  b ← index (buckets t) p.1;
  index b p.2.

(** [e->value = v] *)
Definition store_value (p : Entry_ptr) (v : V) : M unit :=
  t ← get;
  b ← read (λ t, index (buckets t) p.1);
  e ← read (λ _, index b p.2);
  put (mkHashMap (<[p.1 := <[p.2 := mkEntry (key e) v]> b]> (buckets t))
         (bucket_count t) (entry_count t) (max_load_factor t)).

(** [buckets[i].push_back(e)] *)
Definition push_back (i : nat) (e : Entry) : M unit :=
  t ← get;
  b ← read (λ t, index (buckets t) i);
  put (mkHashMap (<[i := b ++ [e]]> (buckets t))
         (bucket_count t) (entry_count t) (max_load_factor t)).

(** *** Hash policy *)

(** [load_factor]: the quotient of two doubles is a double, which the
    return converts to [float]. *)
Definition load_factor (t : HashMap) : real :=
  to_float
    (to_double (fdiv (of_size_t (entry_count t)) (of_size_t (bucket_count t)))).

(** [get_max_load_factor] *)
Definition get_max_load_factor (t : HashMap) : Q := max_load_factor t.

(** [rehash] *)
Definition rehash (count : nat) : M unit :=
  t ← get;
  let new_bucket_count := count in
  min_required ← read (λ t,
    to_size_t (ceil (fdiv (of_size_t (entry_count t)) (max_load_factor t))));
  let new_bucket_count :=
    if new_bucket_count <? min_required then min_required
    else new_bucket_count in
  if new_bucket_count =? bucket_count t then mret tt
  else
    let old_buckets := buckets t in
    _ ← put (mkHashMap (replicate new_bucket_count []) new_bucket_count
               (entry_count t) (max_load_factor t));
    for_each old_buckets (λ b,
      for_each b (λ e,
        idx ← read (hash_func (key e));
        push_back idx e)).

(** [set_max_load_factor] *)
Definition set_max_load_factor (ml : Q) : M unit :=
  t ← get;
  _ ← put (mkHashMap (buckets t) (bucket_count t) (entry_count t) ml);
  t ← get;
  if fgt (load_factor t) (max_load_factor t)
  then rehash (bucket_count t * 2)
  else mret tt.

(** *** Modifiers *)

(** [insert] *)
Definition insert (k : K) (v : V) : M unit :=
  e ← read (find_entry k);
  match e with
  | Some p => store_value p v
  | None =>
      idx ← read (hash_func k);
      _ ← push_back idx (mkEntry k v);
      t ← get;
      _ ← put (mkHashMap (buckets t) (bucket_count t) (entry_count t + 1)
                 (max_load_factor t));
      t ← get;
      if fgt (load_factor t) (max_load_factor t)
      then rehash (bucket_count t * 2)
      else mret tt
  end.

(** [if (i + 1 != b.size()) b[i] = b.back(); b.pop_back();] for a
    position [i] of the bucket [b]. *)
Definition pop_back (b : list Entry) : list Entry := take (length b - 1) b.

Definition swap_pop (i : nat) (b : list Entry) : list Entry :=
  pop_back
    (if decide (i + 1 ≠ length b)
     then match last b with Some x => <[i := x]> b | None => b end
     else b).

(** [erase(const K&)] *)
Definition erase (k : K) : M nat :=
  idx ← read (hash_func k);
  b ← read (λ t, index (buckets t) idx);
  match list_find (λ e, key e = k) b with
  | Some (i, _) =>
      t ← get;
      _ ← put (mkHashMap (<[idx := swap_pop i b]> (buckets t))
                 (bucket_count t) (decr (entry_count t))
                 (max_load_factor t));
      mret 1
  | None => mret 0
  end.

(** [clear] *)
Definition clear : M unit :=
  t ← get;
  put (mkHashMap ((λ _, []) <$> buckets t) (bucket_count t) 0
         (max_load_factor t)).

(** *** Iterators *)

(** [while (b < bucket_count && buckets[b].empty()) b++;], the loop of
    [Iterator::operator++], of [erase(Iterator)] and of [begin()]; the
    counter bounds the iterations that are left before [b] reaches
    [bucket_count]. *)
Fixpoint skip_empty_loop (m : HashMap) (left b : nat) : outcome nat :=
  match left with
  | O => Ok b
  | S left' =>
      if b <? bucket_count m then
        bk ← index (buckets m) b;
        match bk with
        | [] => skip_empty_loop m left' (b + 1)
        | _ => Ok b
        end
      else Ok b
  end.

Definition skip_empty (m : HashMap) (b : nat) : outcome nat :=
  skip_empty_loop m (bucket_count m - b) b.

(** [end()] *)
Definition end_ (this : ptr) (t : HashMap) : Iterator :=
  mkIterator (Some this) (bucket_count t) 0.

(** [begin()] *)
Definition begin (this : ptr) (t : HashMap) : outcome Iterator :=
  i ← skip_empty t 0;
  mret (if i <? bucket_count t then mkIterator (Some this) i 0
        else end_ this t).

(** [Iterator::operator*]; [m] is the table [it.map] points to. *)
Definition Iterator_deref (m : HashMap) (it : Iterator) : outcome Entry :=
  if bool_decide (map it = None) || (bucket_count m <=? bucket_idx it)
  then Throw (out_of_range "Iterator::operator*: invalid iterator")
  else
    b ← index (buckets m) (bucket_idx it);
    if length b <=? entry_idx it
    then Throw (out_of_range "Iterator::operator*: invalid iterator")
    else index b (entry_idx it).

(** [Iterator::operator++]; [m] is the table [it.map] points to. *)
Definition Iterator_incr (m : HashMap) (it : Iterator) : outcome Iterator :=
  if bool_decide (map it = None) || (bucket_count m <=? bucket_idx it)
  then Ok it
  else
    let entry_idx' := entry_idx it + 1 in
    b ← index (buckets m) (bucket_idx it);
    if entry_idx' <? length b
    then Ok (mkIterator (map it) (bucket_idx it) entry_idx')
    else
      bucket_idx' ← skip_empty m (bucket_idx it + 1);
      Ok (mkIterator (map it) bucket_idx' 0).

(** [erase(Iterator)] *)
Definition erase_pos (this : ptr) (pos : Iterator) : M Iterator :=
  t ← get;
  if bool_decide (map pos ≠ Some this) then mret (end_ this t)
  else if bucket_count t <=? bucket_idx pos then mret (end_ this t)
  else
    b ← read (λ t, index (buckets t) (bucket_idx pos));
    let i := entry_idx pos in
    if length b <=? i then mret (end_ this t)
    else
      let b' := swap_pop i b in
      _ ← put (mkHashMap (<[bucket_idx pos := b']> (buckets t))
                 (bucket_count t) (decr (entry_count t))
                 (max_load_factor t));
      if i <? length b' then mret (mkIterator (Some this) (bucket_idx pos) i)
      else
        nb_idx ← read (λ t, skip_empty t (bucket_idx pos + 1));
        t ← get;
        if nb_idx <? bucket_count t
        then mret (mkIterator (Some this) nb_idx 0)
        else mret (end_ this t).

(** *** Lookup *)

(** [at(const K&)] *)
Definition at_ (k : K) : M V :=
  e ← read (find_entry k);
  match e with
  | None => throw (out_of_range "HashMap::at: key not found")
  | Some p => en ← read (load p); mret (value en)
  end.

(** [at(const K&) const] *)
Definition at_const (k : K) (t : HashMap) : outcome V :=
  e ← find_entry k t;
  match e with
  | None => Throw (out_of_range "HashMap::at: key not found")
  | Some p => en ← load p t; mret (value en)
  end.

(** [count] *)
Definition count (k : K) (t : HashMap) : outcome nat :=
  _ ← hash_func k t;
  e ← find_entry k t;
  mret (if e is Some _ then 1 else 0).

(** [find(const K&)] *)
Definition find (this : ptr) (k : K) : M Iterator :=
  idx ← read (hash_func k);
  b ← read (λ t, index (buckets t) idx);
  t ← get;
  match list_find (λ e, key e = k) b with
  | Some (i, _) => mret (mkIterator (Some this) idx i)
  | None => mret (end_ this t)
  end.

(** [contains] *)
Definition contains (k : K) (t : HashMap) : outcome bool :=
  e ← find_entry k t;
  mret (if e is Some _ then true else false).

(** *** Bucket interface *)

(** [begin(size_t)] *)
Definition begin_bucket (this : ptr) (n : nat) : M Iterator :=
  t ← get;
  if bucket_count t <=? n
  then throw (out_of_range
                "HashMap::begin(bucket): bucket index out of range")
  else
    b ← read (λ t, index (buckets t) n);
    match b with
    | [] => mret (end_ this t)
    | _ => mret (mkIterator (Some this) n 0)
    end.

(** [end(size_t)] *)
Definition end_bucket (this : ptr) (n : nat) : M Iterator :=
  t ← get;
  if bucket_count t <=? n
  then throw (out_of_range "HashMap::end(bucket): bucket index out of range")
  else
    b ← read (λ t, index (buckets t) n);
    mret (mkIterator (Some this) n (length b)).

(** [bucket_size] *)
Definition bucket_size (n : nat) (t : HashMap) : outcome nat :=
  if bucket_count t <=? n
  then Throw (out_of_range "HashMap::bucket_size: bucket index out of range")
  else b ← index (buckets t) n; mret (length b).

(** [size] *)
Definition size (t : HashMap) : nat := entry_count t.

(** *** Copies *)

(** The loop shared by the copy constructor and the copy assignment:
    every entry of [other] is created anew in the bucket of the same
    index. *)
Definition copy_entries (other : HashMap) : M unit :=
  for_each (seq 0 (bucket_count other)) (λ i,
    b ← read (λ _, index (buckets other) i);
    for_each b (λ e, push_back i (mkEntry (key e) (value e)))).

(** [HashMap(const HashMap&)]: [max_load_factor] is not in the
    initialiser list and takes its default member initialiser. *)
Definition HashMap_copy (other : HashMap) : outcome HashMap :=
  match copy_entries other
          (mkHashMap (replicate (bucket_count other) [])
             (bucket_count other) (entry_count other)
             default_max_load_factor) with
  | Ok (_, t) => Ok t
  | Throw (e, _) => Throw e
  | Undefined u => Undefined u
  end.

(** [operator=(const HashMap&)]; [this] and [that] are the addresses of
    the target and of [other]. *)
Definition copy_assign (this that : ptr) (other : HashMap) : M unit :=
  if bool_decide (this = that) then mret tt
  else
    _ ← clear;
    t ← get;
    _ ← put (mkHashMap (replicate (bucket_count other) [])
               (bucket_count other) (entry_count other)
               (max_load_factor t));
    copy_entries other.

(** *** The other member functions *)

(** [empty] *)
Definition empty (t : HashMap) : bool := entry_count t =? 0.

(** [get_bucket_count] *)
Definition get_bucket_count (t : HashMap) : nat := bucket_count t.

(** [bucket] *)
Definition bucket (k : K) (t : HashMap) : outcome nat := hash_func k t.

Context {value_init_V : Value_init V}.

(** [operator[]]; the reference it returns is read at once. *)
Definition subscript (k : K) : M V :=
  e ← read (find_entry k);
  match e with
  | Some p => en ← read (load p); mret (value en)
  | None =>
      idx ← read (hash_func k);
      _ ← push_back idx (mkEntry k value_init);
      t ← get;
      _ ← put (mkHashMap (buckets t) (bucket_count t) (entry_count t + 1)
                 (max_load_factor t));
      t ← get;
      _ ← (if fgt (load_factor t) (max_load_factor t)
           then rehash (bucket_count t * 2)
           else mret tt);
      mret value_init
  end.

(** [HashMap(HashMap&&)]: the new table, and [other] as it is left; a
    vector that was moved from by construction is empty. *)
Definition HashMap_move (other : HashMap) : HashMap * HashMap :=
  (mkHashMap (buckets other) (bucket_count other) (entry_count other)
     (max_load_factor other),
   mkHashMap [] 0 0 (max_load_factor other)).

(** [operator=(HashMap&&)], which returns [other] as it is left; [this] and
    [that] are the addresses of the target and of [other].  What a vector
    holds after it was moved from by assignment is not specified:
    [left_over] stands for it. *)
Definition move_assign (this that : ptr) (other : HashMap)
    (left_over : list (list Entry)) : M HashMap :=
  if bool_decide (this = that) then mret other
  else
    _ ← clear;
    _ ← put (mkHashMap (buckets other) (bucket_count other)
               (entry_count other) (max_load_factor other));
    mret (mkHashMap left_over 0 0 (max_load_factor other)).

(** ** The representation invariant *)

(** All entries, in bucket-major order. *)
Definition entries (t : HashMap) : list Entry := mjoin (buckets t).

(** The data model: one bucket per index below [bucket_count], the entry
    counter counts the entries, every entry lives in the bucket its hash
    selects, keys are unique, the threshold is strictly positive. *)
Record wf (t : HashMap) : Prop := mk_wf {
  wf_length : length (buckets t) = bucket_count t;
  wf_count : entry_count t = length (entries t);
  wf_home : ∀ i b e,
    buckets t !! i = Some b → e ∈ b → hash (key e) mod bucket_count t = i;
  wf_unique : NoDup (key <$> entries t);
  wf_mlf : (0 < max_load_factor t)%Q
}.

(** The bucket a key selects. *)
Definition home (k : K) (t : HashMap) : list Entry :=
  default [] (buckets t !! (hash k mod bucket_count t)).

(** The representation invariant as a test that computes. *)
Definition wf_check (t : HashMap) : bool :=
  bool_decide (length (buckets t) = bucket_count t)
  && bool_decide (entry_count t = length (entries t))
  && forallb (λ ib : nat * list Entry,
       forallb (λ e, bool_decide (hash (key e) mod bucket_count t = ib.1))
         ib.2)
       (imap pair (buckets t))
  && bool_decide (NoDup (key <$> entries t))
  && Qlt_bool 0 (max_load_factor t).

(** [entry_count / bucket_count <= max_load_factor], on the quotient as
    it is, not rounded. *)
Definition load_le_max (t : HashMap) : Prop :=
  match fdiv (of_size_t (entry_count t)) (of_size_t (bucket_count t)) with
  | Finite q => (q <= max_load_factor t)%Q
  | Infinity | NaN => False
  end.

(** [load_factor() <= max_load_factor], on the two floats the source
    compares. *)
Definition load_factor_le_max (t : HashMap) : Prop :=
  match load_factor t with
  | Finite q => (q <= max_load_factor t)%Q
  | Infinity | NaN => False
  end.

(** The quotient as it is exceeds no float above the threshold. *)
Definition load_below_floats_above_max (t : HashMap) : Prop :=
  0 < bucket_count t
  ∧ ∀ f : Q, is_float f → (max_load_factor t < f)%Q →
      (of_size_t (entry_count t) / of_size_t (bucket_count t) <= f)%Q.

(** What [rehash] computes before it compares: the smallest bucket
    count the threshold allows. *)
Definition min_required (t : HashMap) : nat :=
  Z.to_nat (Qceiling (of_size_t (entry_count t) / max_load_factor t)).

(** The bucket array [rehash] builds for [n] buckets. *)
Definition distribute (n : nat) (es : list Entry) : list (list Entry) :=
  (λ j, filter (λ e, hash (key e) mod n = j) es) <$> seq 0 n.

(** The exception of [at]. *)
Definition key_not_found : exception :=
  out_of_range "HashMap::at: key not found".

(** ** The tables the operations leave *)

(** The inner statement of the loop of [rehash]. *)
Definition refile (e : Entry) : M unit :=
  idx ← read (hash_func (key e));
  push_back idx e.

(** The table [rehash(count)] leaves. *)
Definition rehashed (count : nat) (t : HashMap) : HashMap :=
  let n := count `max` min_required t in
  if n =? bucket_count t then t
  else mkHashMap (distribute n (entries t)) n (entry_count t)
         (max_load_factor t).

(** The table after bucket [i] became [b'] and the entry counter [c]. *)
Definition with_bucket (t : HashMap) (i : nat) (b' : list Entry) (c : nat)
    : HashMap :=
  mkHashMap (<[i := b']> (buckets t)) (bucket_count t) c
    (max_load_factor t).

(** The table after the new entry was appended and counted, before the
    load factor is compared. *)
Definition appended (k : K) (v : V) (t : HashMap) : HashMap :=
  with_bucket t (hash k mod bucket_count t) (home k t ++ [mkEntry k v])
    (entry_count t + 1).

(** The table [insert(k, v)] leaves. *)
Definition inserted (k : K) (v : V) (t : HashMap) : HashMap :=
  match list_find (λ e, key e = k) (home k t) with
  | Some (i, e) =>
      with_bucket t (hash k mod bucket_count t)
        (<[i := mkEntry (key e) v]> (home k t)) (entry_count t)
  | None =>
      if fgt (load_factor (appended k v t)) (max_load_factor t)
      then rehashed (bucket_count t * 2) (appended k v t)
      else appended k v t
  end.

(** The table after the entry at position [i] of bucket [bi] was
    erased. *)
Definition erased (bi i : nat) (t : HashMap) : HashMap :=
  with_bucket t bi (swap_pop i (default [] (buckets t !! bi)))
    (decr (entry_count t)).

(** ** Traversals *)

(** The cursors of the entries of the buckets [bs], the first of which
    has index [bi]: bucket-major, entry-minor. *)
Fixpoint cursors_from (this : ptr) (bi : nat) (bs : list (list Entry))
    : list Iterator :=
  match bs with
  | [] => []
  | b :: bs' =>
      (mkIterator (Some this) bi <$> seq 0 (length b))
      ++ cursors_from this (S bi) bs'
  end.

(** The cursors a full traversal of the table visits, in order. *)
Definition cursors (this : ptr) (t : HashMap) : list Iterator :=
  cursors_from this 0 (buckets t).

(** The number of entries a traversal visits before the slot
    [(bi, i)]. *)
Definition rank (t : HashMap) (bi i : nat) : nat :=
  length (mjoin (take bi (buckets t))) + i.

(** [it] after [j] increments. *)
Fixpoint advance (m : HashMap) (j : nat) (it : Iterator) : outcome Iterator :=
  match j with
  | O => Ok it
  | S j' => it' ← Iterator_incr m it; advance m j' it'
  end.

(** ** Thresholds, constructions, sequences of operations *)

(** The table with another threshold. *)
Definition with_max_load_factor (ml : Q) (t : HashMap) : HashMap :=
  mkHashMap (buckets t) (bucket_count t) (entry_count t) ml.

(** The table [set_max_load_factor(ml)] leaves. *)
Definition reloaded (ml : Q) (t : HashMap) : HashMap :=
  if fgt (load_factor (with_max_load_factor ml t)) ml
  then rehashed (bucket_count t * 2) (with_max_load_factor ml t)
  else with_max_load_factor ml t.

(** What the three constructors build. *)
Definition empty_table (cap : nat) (mlf : Q) : HashMap :=
  mkHashMap (replicate cap []) cap 0 mlf.

(** The table was built by the default constructor, or by one of the two
    constructors that take a capacity. *)
Definition constructed (t : HashMap) : Prop :=
  t = HashMap_default
  ∨ (∃ cap, HashMap_cap cap = Ok t)
  ∨ (∃ cap mlf, HashMap_cap_mlf cap mlf = Ok t).

(** The bucket count after a key the table does not have was inserted. *)
Definition grown_bucket_count (t : HashMap) : nat :=
  if fgt (to_float (to_double (fdiv (of_size_t (entry_count t + 1))
                                 (of_size_t (bucket_count t)))))
       (max_load_factor t)
  then (bucket_count t * 2)
       `max` Z.to_nat (Qceiling (of_size_t (entry_count t + 1)
                                 / max_load_factor t))
  else bucket_count t.

(** An insertion or a change of the threshold. *)
Inductive op : Type :=
  | Insert (k : K) (v : V)
  | SetMaxLoadFactor (ml : Q).

(** The call an operation stands for. *)
Definition apply_op (o : op) : M unit :=
  match o with
  | Insert k v => insert k v
  | SetMaxLoadFactor ml => set_max_load_factor ml
  end.

(** The thresholds an operation sets are strictly positive. *)
Definition positive_op (o : op) : Prop :=
  match o with
  | Insert _ _ => True
  | SetMaxLoadFactor ml => (0 < ml)%Q
  end.

(** The thresholds an operation sets are floats, as the parameter of
    [set_max_load_factor] is. *)
Definition float_op (o : op) : Prop :=
  match o with
  | Insert _ _ => True
  | SetMaxLoadFactor ml => is_float ml
  end.

(** A run of [body] over [l] from [t] never has more buckets than a
    [size_t] counts: no quotient that [rehash] converts to [size_t] and no
    doubled bucket count passes [SIZE_MAX], since the table would have that
    many buckets afterwards. *)
Fixpoint within_size_t {A} (body : A → M unit) (l : list A) (t : HashMap)
    : Prop :=
  (Z.of_nat (bucket_count t) <= 2 ^ 64 - 1)%Z
  ∧ match l with
    | [] => True
    | x :: l' =>
        match body x t with
        | Ok (_, t') => within_size_t body l' t'
        | Throw _ | Undefined _ => True
        end
    end.

(** C1 in its own words: after every operation of the sequence the
    quotient [entry_count / bucket_count] is at most the threshold. *)
Definition load_invariant_as_claimed (t0 : HashMap) (ops : list op) : Prop :=
  ∀ n, ∃ t, for_each (take n ops) apply_op t0 = Ok (tt, t) ∧ load_le_max t.

(** The operation was carried out, not rejected. *)
Definition took_effect (o : op) (t : HashMap) : Prop :=
  match o with
  | Insert k v => at_ k t = Ok (v, t)
  | SetMaxLoadFactor ml => max_load_factor t = ml
  end.

(** C6 in its own words: from [begin(n)], as many increments as bucket
    [n] has entries visit these entries in order and end on [end(n)], and
    [begin(n)] is [end(n)] exactly when the bucket is empty. *)
Definition bucket_iteration_as_claimed (this : ptr) (t : HashMap) (n : nat)
    : Prop :=
  ∃ b first last,
    buckets t !! n = Some b
    ∧ begin_bucket this n t = Ok (first, t)
    ∧ end_bucket this n t = Ok (last, t)
    ∧ (∀ i e, b !! i = Some e →
         ∃ it, advance t i first = Ok it ∧ Iterator_deref t it = Ok e)
    ∧ advance t (length b) first = Ok last
    ∧ (Iterator_eqb first last = true ↔ b = []).

(** ** Sequences of calls of any member function that changes the table *)

Inductive mutation : Type :=
  | Call_insert (k : K) (v : V)
  | Call_subscript (k : K)
  | Call_erase (k : K)
  | Call_erase_pos (pos : Iterator)
  | Call_clear
  | Call_rehash (count : nat)
  | Call_set_max_load_factor (ml : Q).

(** The call a mutation stands for, on the table at the address [this]. *)
Definition apply_mutation (this : ptr) (c : mutation) : M unit :=
  match c with
  | Call_insert k v => insert k v
  | Call_subscript k => _ ← subscript k; mret tt
  | Call_erase k => _ ← erase k; mret tt
  | Call_erase_pos pos => _ ← erase_pos this pos; mret tt
  | Call_clear => clear
  | Call_rehash count => rehash count
  | Call_set_max_load_factor ml => set_max_load_factor ml
  end.

(** The calls that keep a bucket and a strictly positive threshold:
    [rehash] is asked for a bucket at least, the threshold that is set is
    a strictly positive float. *)
Definition sound_call (c : mutation) : Prop :=
  match c with
  | Call_rehash count => 0 < count
  | Call_set_max_load_factor ml => (0 < ml)%Q ∧ is_float ml
  | _ => True
  end.

(** [it = begin()], then [n] times [it = erase(it)]. *)
Fixpoint erase_front (this : ptr) (n : nat) : M Iterator :=
  match n with
  | O => read (begin this)
  | S n' => it ← erase_front this n'; erase_pos this it
  end.

End HashMap.

(** ** Concrete tables *)

(** Keys and values are numbers, and a number is its own hash. *)
#[export] Instance nat_hash : Hash nat := λ k, k.

(** The four insertions of the scenario of C5, keys 1 to 4. *)
Definition four_keys : M unit :=
  for_each [(1, 10); (2, 20); (3, 30); (4, 40)] (λ kv, insert kv.1 kv.2).

(** Three keys of one bucket and one of the other. *)
Definition crowded : HashMap :=
  mkHashMap [[mkEntry 0 1; mkEntry 2 3; mkEntry 4 5]; [mkEntry 1 7]] 2 4
    (10 # 1).

(** One key in bucket 0 of two buckets. *)
Definition lonely : HashMap :=
  mkHashMap [[mkEntry 0 10]; []] 2 1 (3 # 4).

(** Two insertions and a threshold in between. *)
Definition three_ops : list (@op nat nat) :=
  [Insert 1 10; SetMaxLoadFactor (1 # 128); Insert 2 20].

(** [0.7f], the float nearest to seven tenths, which lies below it. *)
Definition float_0_7 : Q := 11744051 # 16777216.

(** The keys 0 to 6, inserted in this order. *)
Definition seven_inserts : list (@op nat nat) :=
  (λ k, Insert k k) <$> seq 0 7.

(** [V{}] of a number is zero. *)
#[export] Instance nat_value_init : Value_init nat := 0.

(** One call of each member function that changes the table; the cursor
    that is erased designates no entry. *)
Definition seven_calls : list (@mutation nat nat) :=
  [Call_insert 1 2; Call_subscript 5; Call_erase 1;
   Call_erase_pos (mkIterator (Some 0) 40 0); Call_rehash 3;
   Call_set_max_load_factor (1 # 2); Call_clear].

(** * Rounding *)

Section Rounding.
Local Open Scope Q_scope.

Lemma rne_bounds x : (Qfloor x <= rne x <= Qfloor x + 1)%Z.
Proof.
  unfold rne. destruct (Qcompare _ _); [destruct (Z.even _)|..]; lia.
Qed.

(** Rounding to a whole number keeps the order. *)
Lemma rne_mono x y : x <= y -> (rne x <= rne y)%Z.
Proof.
  intros Hxy. pose proof (Qfloor_resp_le x y Hxy) as Hf.
  pose proof (rne_bounds x) as Hx. pose proof (rne_bounds y) as Hy.
  destruct (Z.eq_dec (Qfloor x) (Qfloor y)) as [Heq|Hne]; [|lia].
  unfold rne. rewrite <-Heq.
  assert (x - inject_Z (Qfloor x) <= y - inject_Z (Qfloor x)) as Hr by lra.
  destruct (Qcompare_spec (x - inject_Z (Qfloor x)) (1 # 2)) as [H1|H1|H1];
    destruct (Qcompare_spec (y - inject_Z (Qfloor x)) (1 # 2)) as [H2|H2|H2];
    try destruct (Z.even _); try lia; exfalso; lra.
Qed.

Lemma rne_Z n : rne (inject_Z n) = n.
Proof.
  unfold rne. rewrite Qfloor_Z.
  destruct (Qcompare_spec (inject_Z n - inject_Z n) (1 # 2)) as [H|H|H];
    [exfalso; lra|reflexivity|exfalso; lra].
Qed.

Lemma pow2_pos e : 0 < 2 ^ e.
Proof. apply Qpower_0_lt. reflexivity. Qed.

Lemma pow2_Z n : (0 <= n)%Z -> inject_Z (2 ^ n) == 2 ^ n.
Proof. intros Hn. apply Zpower_Qpower; exact Hn. Qed.

(** [ilog2] is the exponent. *)
Lemma ilog2_spec q : 0 < q -> 2 ^ ilog2 q <= q /\ q < 2 ^ (ilog2 q + 1).
Proof.
  intros Hq. unfold ilog2. destruct (Qle_bool 1 q) eqn:E.
  - apply Qle_bool_iff in E.
    assert (1 <= Qfloor q)%Z as Hf.
    { change 1%Z with (Qfloor 1). apply Qfloor_resp_le; exact E. }
    destruct (Z.log2_spec (Qfloor q)) as [Hlo Hhi]; [lia|].
    pose proof (Z.log2_nonneg (Qfloor q)) as Hnn.
    rewrite <-!pow2_Z by lia. split.
    + eapply Qle_trans; [|apply Qfloor_le]. rewrite <-Zle_Qle. exact Hlo.
    + eapply Qlt_le_trans; [apply Qlt_floor|]. rewrite <-Zle_Qle.
      rewrite Z.add_1_r. lia.
  - assert (q < 1) as Hq1.
    { apply Qnot_le_lt. intros H. apply Qle_bool_iff in H. congruence. }
    assert (0 < / q) as Hinv by (apply Qinv_lt_0_compat; exact Hq).
    assert (1 < Qceiling (/ q))%Z as Hc.
    { pose proof (Qle_ceiling (/ q)) as H. rewrite Zlt_Qlt.
      eapply Qlt_le_trans; [|exact H].
      apply Qlt_shift_inv_l; [exact Hq|]. change (inject_Z 1) with 1. lra. }
    destruct (Z.log2_up_spec (Qceiling (/ q)) Hc) as [Hlo Hhi].
    pose proof (Z.log2_up_pos (Qceiling (/ q)) Hc) as Hu.
    set (u := Z.log2_up (Qceiling (/ q))) in *.
    assert (/ q <= 2 ^ u) as Hup.
    { rewrite <-pow2_Z by lia. eapply Qle_trans; [apply Qle_ceiling|].
      rewrite <-Zle_Qle. exact Hhi. }
    assert (2 ^ (u - 1) < / q) as Hdown.
    { rewrite <-pow2_Z by lia. eapply Qle_lt_trans; [|apply Qceiling_lt].
      rewrite <-Zle_Qle. rewrite <-Z.sub_1_r in Hlo. lia. }
    pose proof (pow2_pos u) as Hpu. pose proof (pow2_pos (u - 1)) as Hpu1.
    assert (/ q * q == 1) as Hone.
    { rewrite Qmult_comm. apply Qmult_inv_r. intros H0. rewrite H0 in Hq.
      discriminate. }
    split.
    + rewrite Qpower_opp. apply Qle_shift_inv_r; [exact Hpu|].
      rewrite Qmult_comm, <-Hone. apply Qmult_le_compat_r; [exact Hup|].
      apply Qlt_le_weak, Hq.
    + replace (- u + 1)%Z with (- (u - 1))%Z by lia. rewrite Qpower_opp.
      apply Qlt_shift_inv_l; [exact Hpu1|].
      rewrite Qmult_comm, <-Hone. apply Qmult_lt_compat_r; [exact Hq|].
      exact Hdown.
Qed.

Lemma ilog2_mono q1 q2 : 0 < q1 -> q1 <= q2 -> (ilog2 q1 <= ilog2 q2)%Z.
Proof.
  intros H1 H12. assert (0 < q2) as H2 by lra.
  destruct (ilog2_spec q1 H1) as [Hlo _].
  destruct (ilog2_spec q2 H2) as [_ Hhi].
  assert (2 ^ ilog2 q1 < 2 ^ (ilog2 q2 + 1)) as H by lra.
  apply Qpower_lt_compat_l_inv in H; [lia|reflexivity].
Qed.

Section Precision.
Variable p : Z.
Hypothesis Hp : (1 <= p)%Z.

(** The significand before it is rounded has [p] bits. *)
Lemma scaled_bounds q :
  0 < q ->
  inject_Z (2 ^ (p - 1)) <= q / 2 ^ (ilog2 q - (p - 1))
  /\ q / 2 ^ (ilog2 q - (p - 1)) <= inject_Z (2 ^ p).
Proof.
  intros Hq. destruct (ilog2_spec q Hq) as [Hlo Hhi].
  pose proof (pow2_pos (ilog2 q - (p - 1))) as He.
  rewrite !pow2_Z by lia. split.
  - apply Qle_shift_div_l; [exact He|].
    rewrite <-Qpower_plus by discriminate.
    replace (p - 1 + (ilog2 q - (p - 1)))%Z with (ilog2 q) by lia. exact Hlo.
  - apply Qle_shift_div_r; [exact He|].
    rewrite <-Qpower_plus by discriminate.
    replace (p + (ilog2 q - (p - 1)))%Z with (ilog2 q + 1)%Z by lia.
    apply Qlt_le_weak, Hhi.
Qed.

(** A rounded value stays between the two powers of two around the
    value. *)
Lemma round_pos_bounds q :
  0 < q ->
  2 ^ ilog2 q <= round_pos p q /\ round_pos p q <= 2 ^ (ilog2 q + 1).
Proof.
  intros Hq. destruct (scaled_bounds q Hq) as [Hlo Hhi].
  apply rne_mono in Hlo, Hhi. rewrite rne_Z in Hlo, Hhi.
  unfold round_pos.
  set (e := (ilog2 q - (p - 1))%Z) in *.
  pose proof (pow2_pos e) as He.
  rewrite Zle_Qle in Hlo, Hhi. rewrite !pow2_Z in Hlo, Hhi by lia.
  split.
  - replace (ilog2 q) with (p - 1 + e)%Z at 1 by (unfold e; lia).
    rewrite Qpower_plus by discriminate.
    apply Qmult_le_compat_r; [exact Hlo|]. apply Qlt_le_weak, He.
  - replace (ilog2 q + 1)%Z with (p + e)%Z by (unfold e; lia).
    rewrite Qpower_plus by discriminate.
    apply Qmult_le_compat_r; [exact Hhi|]. apply Qlt_le_weak, He.
Qed.

Lemma round_pos_mono q1 q2 :
  0 < q1 -> q1 <= q2 -> round_pos p q1 <= round_pos p q2.
Proof.
  intros H1 H12. assert (0 < q2) as H2 by lra.
  pose proof (ilog2_mono q1 q2 H1 H12) as Hil.
  destruct (Z.eq_dec (ilog2 q1) (ilog2 q2)) as [Heq|Hne].
  - unfold round_pos. rewrite Heq.
    set (e := (ilog2 q2 - (p - 1))%Z).
    pose proof (pow2_pos e) as He.
    apply Qmult_le_compat_r; [|apply Qlt_le_weak, He].
    rewrite <-Zle_Qle. apply rne_mono.
    unfold Qdiv. apply Qmult_le_compat_r; [exact H12|].
    apply Qlt_le_weak, Qinv_lt_0_compat, He.
  - destruct (round_pos_bounds q1 H1) as [_ Hhi].
    destruct (round_pos_bounds q2 H2) as [Hlo _].
    eapply Qle_trans; [exact Hhi|]. eapply Qle_trans; [|exact Hlo].
    apply Qpower_le_compat_l; [lia|discriminate].
Qed.

Lemma round_gt0 q : 0 < q -> 0 < round p q.
Proof.
  intros Hq. unfold round.
  destruct (Qcompare_spec q 0) as [H|H|H]; [exfalso; lra..|].
  destruct (round_pos_bounds q Hq) as [Hlo _].
  eapply Qlt_le_trans; [apply (pow2_pos (ilog2 q))|exact Hlo].
Qed.

Lemma round_nonneg q : 0 <= q -> 0 <= round p q.
Proof.
  intros Hq. unfold round.
  destruct (Qcompare_spec q 0) as [H|H|H]; [lra|exfalso; lra|].
  fold (round p q). assert (0 < round p q) by (apply round_gt0, H).
  unfold round in *. destruct (Qcompare_spec q 0); lra.
Qed.

(** Rounding keeps the order of the values that are not negative. *)
Lemma round_mono q1 q2 : 0 <= q1 -> q1 <= q2 -> round p q1 <= round p q2.
Proof.
  intros H1 H12. unfold round at 1.
  destruct (Qcompare_spec q1 0) as [H|H|H].
  - apply round_nonneg. lra.
  - exfalso; lra.
  - unfold round.
    destruct (Qcompare_spec q2 0) as [H'|H'|H']; [exfalso; lra..|].
    apply round_pos_mono; assumption.
Qed.

End Precision.

(** What [load_factor] makes of a quotient is at most every float the
    quotient is at most, *)
Lemma round_twice_le q f :
  0 <= q -> q <= f -> is_float f -> round 24 (round 53 q) <= f.
Proof.
  intros Hq Hqf Hf. unfold is_float in Hf. rewrite <-Hf.
  apply round_mono; [lia|apply round_nonneg; [lia|exact Hq]|].
  apply round_mono; [lia|exact Hq|exact Hqf].
Qed.

(** at least every float the quotient is at least, *)
Lemma round_twice_ge q f :
  0 <= f -> f <= q -> is_float f -> f <= round 24 (round 53 q).
Proof.
  intros H0 Hfq Hf. unfold is_float in Hf. rewrite <-Hf.
  apply round_mono; [lia|apply round_nonneg; [lia|exact H0]|].
  apply round_mono; [lia|exact H0|exact Hfq].
Qed.

(** it keeps the order of the quotients, *)
Lemma round_twice_mono q1 q2 :
  0 <= q1 -> q1 <= q2 ->
  round 24 (round 53 q1) <= round 24 (round 53 q2).
Proof.
  intros H1 H12.
  apply round_mono; [lia|apply round_nonneg; [lia|exact H1]|].
  apply round_mono; [lia|exact H1|exact H12].
Qed.

(** and not zero unless the quotient is. *)
Lemma round_twice_gt0 q : 0 < q -> 0 < round 24 (round 53 q).
Proof.
  intros Hq. apply round_gt0; [lia|]. apply round_gt0; [lia|exact Hq].
Qed.

Lemma is_float_0 : is_float 0.
Proof. reflexivity. Qed.

End Rounding.

(** * Properties *)

Section Properties.
Context {K V : Type} `{EqDecision K} {hash_K : Hash K}.
Implicit Types (t s m other : @HashMap K V) (k : K) (v : V) (e : @Entry K V).
Implicit Types (es cur : list (@Entry K V)) (bs : list (list (@Entry K V))).

(** *** Running the monad *)

Ltac run :=
  repeat (progress (unfold mbind, M_bind, completion_bind, mret, M_ret,
                      completion_ret, read, get, put, throw; simpl)).

Lemma index_Some {A} (v : list A) i x : v !! i = Some x → index v i = Ok x.
Proof. unfold index. by intros ->. Qed.

(** [operator==] on cursors is equality. *)
Lemma Iterator_eqb_eq (a b : Iterator) : Iterator_eqb a b = true ↔ a = b.
Proof.
  unfold Iterator_eqb. rewrite !andb_true_iff, bool_decide_eq_true.
  rewrite !Nat.eqb_eq. destruct a, b; simpl. split.
  - by intros [[-> ->] ->].
  - by intros [= -> -> ->].
Qed.

Lemma Iterator_eqb_ne (a b : Iterator) : a ≠ b → Iterator_eqb a b = false.
Proof.
  intros Hne. destruct (Iterator_eqb a b) eqn:E; [|done].
  by apply Iterator_eqb_eq in E.
Qed.

Lemma hash_func_ok k t :
  0 < bucket_count t → hash_func k t = Ok (hash k mod bucket_count t).
Proof.
  intros Hb. unfold hash_func.
  destruct (Nat.eqb_spec (bucket_count t) 0); [lia|done].
Qed.

Lemma hash_func_zero k t :
  bucket_count t = 0 → hash_func k t = Undefined division_by_zero.
Proof. intros Hb. unfold hash_func. by rewrite Hb. Qed.

Lemma home_lookup k t :
  length (buckets t) = bucket_count t → 0 < bucket_count t →
  buckets t !! (hash k mod bucket_count t) = Some (home k t).
Proof.
  intros Hl Hb. unfold home.
  destruct (lookup_lt_is_Some_2 (buckets t) (hash k mod bucket_count t))
    as [b Hbk]; [|by rewrite Hbk].
  rewrite Hl. apply Nat.mod_upper_bound. lia.
Qed.

Lemma Qlt_bool_true (x y : Q) : Qlt_bool x y = true → (x < y)%Q.
Proof.
  unfold Qlt_bool. intros Hxy%negb_true_iff. apply Qnot_le_lt.
  intros Hle%Qle_bool_iff. congruence.
Qed.

(** A table that passes the test satisfies the invariant. *)
Lemma wf_check_correct t : wf_check t = true → wf t.
Proof.
  unfold wf_check. rewrite !andb_true_iff.
  intros ((((Hl%bool_decide_eq_true & Hc%bool_decide_eq_true) & Hh)
           & Hnd%bool_decide_eq_true) & Hm%Qlt_bool_true).
  split; [done..| |done|done].
  intros i b e Hi He. rewrite forallb_forall in Hh.
  specialize (Hh (i, b)). simpl in Hh. rewrite forallb_forall in Hh.
  eapply bool_decide_eq_true_1, Hh; apply list_elem_of_In; [|done].
  by apply (elem_of_lookup_imap_2 pair (buckets t) b i).
Qed.

Lemma find_entry_ok k t :
  length (buckets t) = bucket_count t → 0 < bucket_count t →
  find_entry k t =
    Ok (match list_find (λ e, key e = k) (home k t) with
        | Some (i, _) => Some (hash k mod bucket_count t, i)
        | None => None
        end).
Proof.
  intros Hl Hb. unfold find_entry.
  rewrite hash_func_ok by done. run.
  by rewrite (index_Some _ _ _ (home_lookup k t Hl Hb)).
Qed.

(** *** Entries and their buckets *)

Lemma elem_of_entries e t :
  e ∈ entries t ↔ ∃ i b, buckets t !! i = Some b ∧ e ∈ b.
Proof.
  unfold entries. rewrite list_elem_of_join. split.
  - intros (b & He & [i Hi]%list_elem_of_lookup_1). eauto.
  - intros (i & b & Hi & He). eauto using list_elem_of_lookup_2.
Qed.

Lemma unique_key (l : list (@Entry K V)) e e' :
  NoDup (key <$> l) → e ∈ l → e' ∈ l → key e = key e' → e = e'.
Proof.
  intros Hnd [i Hi]%list_elem_of_lookup_1 [j Hj]%list_elem_of_lookup_1 Hk.
  assert (i = j) as ->; [|congruence].
  apply (NoDup_lookup _ i j (key e) Hnd); rewrite list_lookup_fmap.
  - by rewrite Hi.
  - by rewrite Hj, Hk.
Qed.

Lemma home_elem_of k e t :
  length (buckets t) = bucket_count t → 0 < bucket_count t →
  e ∈ home k t → e ∈ entries t.
Proof.
  intros Hl Hb He. apply elem_of_entries.
  eauto using home_lookup.
Qed.

Lemma entries_home e t :
  wf t → e ∈ entries t → e ∈ home (key e) t.
Proof.
  intros Hwf (i & b & Hi & He)%elem_of_entries.
  unfold home. by rewrite (wf_home t Hwf i b e Hi He), Hi.
Qed.

(** The linear search of the home bucket finds the entry of a key, if the
    table has one. *)
Lemma find_home_None k t :
  wf t → 0 < bucket_count t →
  list_find (λ e, key e = k) (home k t) = None ↔
  ∀ e, e ∈ entries t → key e ≠ k.
Proof.
  intros Hwf Hb. rewrite list_find_None, Forall_forall. split.
  - intros Hno e He Hk. apply (Hno e); [|done].
    rewrite <-Hk. by apply entries_home.
  - intros Hno e He. apply Hno.
    eapply home_elem_of; eauto using wf_length.
Qed.

Lemma find_home_Some k e t :
  wf t → 0 < bucket_count t →
  (∃ i, list_find (λ e, key e = k) (home k t) = Some (i, e)) ↔
  e ∈ entries t ∧ key e = k.
Proof.
  intros Hwf Hb. split.
  - intros (i & (Hi & Hk & _)%list_find_Some). split; [|done].
    eapply home_elem_of; eauto using wf_length, list_elem_of_lookup_2.
  - intros [He Hk].
    destruct (list_find_elem_of (λ e, key e = k) (home k t) e)
      as [[i e'] Hf]; [by rewrite <-Hk; apply entries_home|done|].
    exists i. rewrite Hf. do 2 f_equal.
    pose proof Hf as (Hi & Hk' & _)%list_find_Some.
    apply (unique_key (entries t)); [by apply wf_unique| |done|congruence].
    eapply home_elem_of; eauto using wf_length, list_elem_of_lookup_2.
Qed.

(** *** Lookup *)

Lemma at_ok k t :
  length (buckets t) = bucket_count t → 0 < bucket_count t →
  at_ k t =
    match list_find (λ e, key e = k) (home k t) with
    | Some (_, e) => Ok (value e, t)
    | None => Throw (key_not_found, t)
    end.
Proof.
  intros Hl Hb. unfold at_. run. rewrite find_entry_ok by done.
  destruct (list_find _ _) as [[i e]|] eqn:Hf; [|done].
  apply list_find_Some in Hf as (Hi & _ & _).
  unfold load. simpl.
  rewrite (index_Some _ _ _ (home_lookup k t Hl Hb)). run.
  by rewrite (index_Some _ _ _ Hi).
Qed.

Lemma at_const_ok k t :
  length (buckets t) = bucket_count t → 0 < bucket_count t →
  at_const k t =
    match list_find (λ e, key e = k) (home k t) with
    | Some (_, e) => Ok (value e)
    | None => Throw key_not_found
    end.
Proof.
  intros Hl Hb. unfold at_const. run. rewrite find_entry_ok by done.
  destruct (list_find _ _) as [[i e]|] eqn:Hf; [|done].
  apply list_find_Some in Hf as (Hi & _ & _).
  unfold load. simpl.
  rewrite (index_Some _ _ _ (home_lookup k t Hl Hb)). run.
  by rewrite (index_Some _ _ _ Hi).
Qed.

Lemma contains_ok k t :
  length (buckets t) = bucket_count t → 0 < bucket_count t →
  contains k t =
    Ok (if list_find (λ e, key e = k) (home k t) is Some _ then true
        else false).
Proof.
  intros Hl Hb. unfold contains. run. rewrite find_entry_ok by done.
  by destruct (list_find _ _) as [[i e]|].
Qed.

Lemma at_present k v t :
  wf t → 0 < bucket_count t →
  mkEntry k v ∈ entries t → at_ k t = Ok (v, t).
Proof.
  intros Hwf Hb He. rewrite at_ok by eauto using wf_length.
  destruct (proj2 (find_home_Some k (mkEntry k v) t Hwf Hb)) as [i ->]; done.
Qed.

Lemma at_absent k t :
  wf t → 0 < bucket_count t →
  (∀ e, e ∈ entries t → key e ≠ k) → at_ k t = Throw (key_not_found, t).
Proof.
  intros Hwf Hb He. rewrite at_ok by eauto using wf_length.
  by rewrite (proj2 (find_home_None k t Hwf Hb) He).
Qed.

Lemma contains_present k e t :
  wf t → 0 < bucket_count t →
  e ∈ entries t → key e = k → contains k t = Ok true.
Proof.
  intros Hwf Hb He Hk. rewrite contains_ok by eauto using wf_length.
  destruct (proj2 (find_home_Some k e t Hwf Hb)) as [i ->]; done.
Qed.

Lemma contains_absent k t :
  wf t → 0 < bucket_count t →
  (∀ e, e ∈ entries t → key e ≠ k) → contains k t = Ok false.
Proof.
  intros Hwf Hb He. rewrite contains_ok by eauto using wf_length.
  by rewrite (proj2 (find_home_None k t Hwf Hb) He).
Qed.

(** *** Exact arithmetic of the growth policy *)

Lemma of_size_t_nonneg n : (0 <= of_size_t n)%Q.
Proof.
  unfold of_size_t. change 0%Q with (inject_Z 0). rewrite <-Zle_Qle. lia.
Qed.

Lemma of_size_t_pos n : 0 < n → (0 < of_size_t n)%Q.
Proof.
  intros Hn. unfold of_size_t. change 0%Q with (inject_Z 0).
  rewrite <-Zlt_Qlt. lia.
Qed.

Lemma Qeq_bool_pos q : (0 < q)%Q → Qeq_bool q 0 = false.
Proof.
  intros Hq. destruct (Qeq_bool q 0) eqn:E; [|done].
  apply Qeq_bool_iff in E. rewrite E in Hq. by apply Qlt_irrefl in Hq.
Qed.

Lemma quotient_nonneg n q : (0 < q)%Q → (0 <= of_size_t n / q)%Q.
Proof.
  intros Hq. apply Qle_shift_div_l; [done|].
  rewrite Qmult_0_l. apply of_size_t_nonneg.
Qed.

Lemma Qceiling_nonneg q : (0 <= q)%Q → (0 <= Qceiling q)%Z.
Proof.
  intros Hq. rewrite Zle_Qle.
  eapply Qle_trans; [exact Hq|apply Qle_ceiling].
Qed.

Lemma min_required_ok t :
  (0 < max_load_factor t)%Q →
  to_size_t (ceil (fdiv (of_size_t (entry_count t)) (max_load_factor t)))
  = Ok (min_required t).
Proof.
  intros Hm. unfold fdiv. rewrite Qeq_bool_pos by done. simpl.
  rewrite Z.quot_1_r.
  pose proof (Qceiling_nonneg _ (quotient_nonneg (entry_count t) _ Hm)).
  destruct (Z.ltb_spec
    (Qceiling (of_size_t (entry_count t) / max_load_factor t)) 0); [lia|].
  done.
Qed.

(** With entries in the table the threshold asks for a bucket. *)
Lemma min_required_pos t :
  (0 < max_load_factor t)%Q → 0 < entry_count t → 0 < min_required t.
Proof.
  intros Hm He. unfold min_required.
  assert (0 < of_size_t (entry_count t) / max_load_factor t)%Q as Hq.
  { apply Qlt_shift_div_l; [done|]. rewrite Qmult_0_l.
    by apply of_size_t_pos. }
  assert (0 < Qceiling (of_size_t (entry_count t) / max_load_factor t))%Z;
    [|lia].
  rewrite Zlt_Qlt. eapply Qlt_le_trans; [exact Hq|apply Qle_ceiling].
Qed.

(** [n] buckets are enough for the threshold once [n] is at least
    [min_required]. *)
Lemma min_required_enough t n :
  (0 < max_load_factor t)%Q → 0 < n → min_required t ≤ n →
  (of_size_t (entry_count t) / of_size_t n <= max_load_factor t)%Q.
Proof.
  intros Hm Hn Hle. pose proof (of_size_t_pos n Hn) as Hn'.
  apply Qle_shift_div_r; [done|].
  assert (of_size_t (entry_count t) / max_load_factor t <= of_size_t n)%Q
    as Hq.
  { eapply Qle_trans; [apply Qle_ceiling|].
    pose proof (Qceiling_nonneg _ (quotient_nonneg (entry_count t) _ Hm)).
    unfold min_required in Hle. unfold of_size_t at 2.
    rewrite <-Zle_Qle. lia. }
  rewrite <-(Qmult_div_r (of_size_t (entry_count t)) (max_load_factor t)).
  - by apply Qmult_le_l.
  - intros E. rewrite E in Hm. by apply Qlt_irrefl in Hm.
Qed.

(** *** Loops *)

Lemma for_each_app {A} (l1 l2 : list A) (body : A → @M K V unit) s :
  for_each (l1 ++ l2) body s
  = (_ ← for_each l1 body; for_each l2 body : M unit) s.
Proof.
  revert s. induction l1 as [|x l1 IH]; intros s; [done|].
  simpl. run. destruct (body x s) as [[[] s1]| |]; [|done..].
  rewrite IH. by run.
Qed.

Lemma for_each_join {A} (ls : list (list A)) (body : A → @M K V unit) s :
  for_each ls (λ l, for_each l body) s = for_each (mjoin ls) body s.
Proof.
  revert s. induction ls as [|l ls IH]; intros s; [done|].
  simpl. rewrite for_each_app. run.
  destruct (for_each l body s) as [[[] s1]| |]; [|done..]. apply IH.
Qed.

Lemma refile_ok e s b :
  0 < bucket_count s →
  buckets s !! (hash (key e) mod bucket_count s) = Some b →
  refile e s
  = Ok (tt, mkHashMap
              (<[hash (key e) mod bucket_count s := b ++ [e]]> (buckets s))
              (bucket_count s) (entry_count s) (max_load_factor s)).
Proof.
  intros Hb Hi. unfold refile, push_back. run.
  rewrite hash_func_ok by done. by rewrite (index_Some _ _ _ Hi).
Qed.

(** The loop of [rehash] appends to bucket [j] the entries whose hash
    selects [j], in the order it meets them. *)
Lemma for_each_refile es s :
  length (buckets s) = bucket_count s →
  es = [] ∨ 0 < bucket_count s →
  for_each es refile s
  = Ok (tt, mkHashMap
              (imap (λ j b,
                 b ++ filter (λ e, hash (key e) mod bucket_count s = j) es)
                 (buckets s))
              (bucket_count s) (entry_count s) (max_load_factor s)).
Proof.
  revert s. induction es as [|e es IH]; intros s Hl Hb.
  { simpl. run. destruct s as [bs n c m]; simpl. do 3 f_equal.
    rewrite <-(list_fmap_id bs) at 1. rewrite <-imap_const.
    apply imap_ext. intros i b _. simpl. by rewrite filter_nil, app_nil_r. }
  destruct Hb as [|Hb]; [done|].
  set (i := hash (key e) mod bucket_count s).
  destruct (lookup_lt_is_Some_2 (buckets s) i) as [b Hi].
  { rewrite Hl. apply Nat.mod_upper_bound. lia. }
  simpl. run. rewrite (refile_ok e s b Hb Hi).
  rewrite IH; simpl; [|by rewrite length_insert|by right].
  do 3 f_equal. apply list_eq. intros j.
  rewrite !list_lookup_imap. fold i.
  destruct (decide (j = i)) as [->|Hne].
  - rewrite list_lookup_insert_eq by eauto using lookup_lt_Some.
    rewrite Hi. simpl. rewrite filter_cons_True by done.
    by rewrite <-(assoc_L (++)).
  - rewrite list_lookup_insert_ne by done.
    rewrite filter_cons_False by (fold i; congruence). done.
Qed.

Lemma distribute_imap n es :
  distribute n es
  = imap (λ j b, b ++ filter (λ e, hash (key e) mod n = j) es)
      (replicate n []).
Proof.
  unfold distribute. apply list_eq. intros j.
  rewrite list_lookup_imap, list_lookup_fmap.
  destruct (decide (j < n)) as [Hj|Hj].
  - by rewrite lookup_seq_lt, lookup_replicate_2 by done.
  - rewrite lookup_seq_ge by lia.
    by rewrite (proj1 (lookup_replicate_None n [] j)) by lia.
Qed.

Lemma length_distribute n es : length (distribute n es) = n.
Proof. unfold distribute. by rewrite length_fmap, length_seq. Qed.

Lemma lookup_distribute n es j :
  j < n →
  distribute n es !! j = Some (filter (λ e, hash (key e) mod n = j) es).
Proof.
  intros Hj. unfold distribute.
  by rewrite list_lookup_fmap, lookup_seq_lt by done.
Qed.

Lemma lookup_distribute_Some n es j b :
  distribute n es !! j = Some b →
  j < n ∧ b = filter (λ e, hash (key e) mod n = j) es.
Proof.
  intros Hj. assert (j < n) as Hlt.
  { rewrite <-(length_distribute n es). eauto using lookup_lt_Some. }
  rewrite lookup_distribute in Hj by done. naive_solver.
Qed.

(** Filing an entry in front of bucket [i] adds it to the entries. *)
Lemma join_insert_cons (ls : list (list (@Entry K V))) i b e :
  ls !! i = Some b → mjoin (<[i := e :: b]> ls) ≡ₚ e :: mjoin ls.
Proof.
  revert i. induction ls as [|l ls IH]; intros [|i] Hi; simplify_eq/=.
  - done.
  - rewrite IH by done. by rewrite Permutation_middle.
Qed.

(** Redistribution keeps the entries. *)
Lemma distribute_Permutation n es :
  es = [] ∨ 0 < n → mjoin (distribute n es) ≡ₚ es.
Proof.
  intros Hn. induction es as [|e es IH].
  { unfold distribute. apply Permutation_nil_r, join_nil_2.
    apply Forall_fmap, Forall_forall. intros j _. simpl.
    by rewrite filter_nil. }
  destruct Hn as [|Hn]; [done|].
  assert (hash (key e) mod n < n) as Hi by (apply Nat.mod_upper_bound; lia).
  assert (distribute n (e :: es)
    = <[hash (key e) mod n :=
          e :: filter (λ e', hash (key e') mod n = hash (key e) mod n) es]>
        (distribute n es)) as ->.
  { apply list_eq. intros j. destruct (decide (j = hash (key e) mod n))
      as [->|Hne].
    - rewrite list_lookup_insert_eq by by rewrite length_distribute.
      rewrite lookup_distribute by done. by rewrite filter_cons_True.
    - rewrite list_lookup_insert_ne by done.
      destruct (decide (j < n)) as [Hj|Hj].
      + rewrite !lookup_distribute by done.
        by rewrite filter_cons_False by congruence.
      + rewrite !(proj2 (lookup_ge_None _ _));
          rewrite ?length_distribute; auto with lia. }
  rewrite join_insert_cons by by apply lookup_distribute.
  constructor. apply IH. by right.
Qed.

(** *** [rehash] *)

Lemma rehash_ok count t :
  (0 < max_load_factor t)%Q → entry_count t = length (entries t) →
  rehash count t = Ok (tt, rehashed count t).
Proof.
  intros Hm Hc. unfold rehash, rehashed. run.
  rewrite min_required_ok by done.
  assert ((if count <? min_required t then min_required t else count)
          = count `max` min_required t) as ->.
  { destruct (Nat.ltb_spec count (min_required t)); lia. }
  set (n := count `max` min_required t).
  destruct (n =? bucket_count t) eqn:En; [done|].
  rewrite for_each_join. fold (entries t).
  change (for_each (entries t) _) with (for_each (entries t) refile).
  rewrite for_each_refile; simpl.
  - by rewrite <-distribute_imap.
  - apply length_replicate.
  - destruct (entries t) as [|e es] eqn:Ees; [by left|right].
    simpl in Hc. pose proof (min_required_pos t Hm). lia.
Qed.

Lemma bucket_count_rehashed count t :
  bucket_count (rehashed count t) = count `max` min_required t.
Proof.
  unfold rehashed.
  by destruct (Nat.eqb_spec (count `max` min_required t) (bucket_count t)).
Qed.

Lemma entry_count_rehashed count t :
  entry_count (rehashed count t) = entry_count t.
Proof. unfold rehashed. by destruct (_ =? _). Qed.

Lemma max_load_factor_rehashed count t :
  max_load_factor (rehashed count t) = max_load_factor t.
Proof. unfold rehashed. by destruct (_ =? _). Qed.

Lemma rehashed_pos_or_empty count t :
  (0 < max_load_factor t)%Q → entry_count t = length (entries t) →
  entries t = [] ∨ 0 < count `max` min_required t.
Proof.
  intros Hm Hc. destruct (entries t) as [|e es]; [by left|right].
  simpl in Hc. pose proof (min_required_pos t Hm). lia.
Qed.

Lemma entries_rehashed count t :
  (0 < max_load_factor t)%Q → entry_count t = length (entries t) →
  entries (rehashed count t) ≡ₚ entries t.
Proof.
  intros Hm Hc. unfold rehashed.
  destruct (_ =? _); [done|]. unfold entries at 1. simpl.
  apply distribute_Permutation. by apply rehashed_pos_or_empty.
Qed.

Lemma wf_rehashed count t : wf t → wf (rehashed count t).
Proof.
  intros Hwf. pose proof (wf_mlf t Hwf) as Hm.
  pose proof (wf_count t Hwf) as Hc.
  pose proof (entries_rehashed count t Hm Hc) as Hp.
  unfold rehashed in *. destruct (_ =? _); [done|].
  split; simpl.
  - apply length_distribute.
  - by rewrite Hp.
  - intros i b e [Hi ->]%lookup_distribute_Some He.
    by apply list_elem_of_filter in He as [? _].
  - by rewrite Hp; apply wf_unique.
  - done.
Qed.

(** *** Replacing one bucket *)

Lemma entries_split t i b :
  buckets t !! i = Some b →
  entries t
  = mjoin (take i (buckets t)) ++ b ++ mjoin (drop (S i) (buckets t)).
Proof.
  intros Hi. unfold entries.
  rewrite <-(take_drop_middle _ _ _ Hi) at 1. by rewrite join_app.
Qed.

Lemma entries_with_bucket t i b b' c :
  buckets t !! i = Some b →
  entries (with_bucket t i b' c)
  = mjoin (take i (buckets t)) ++ b' ++ mjoin (drop (S i) (buckets t)).
Proof.
  intros Hi. unfold entries, with_bucket. simpl.
  rewrite insert_take_drop by eauto using lookup_lt_Some.
  by rewrite join_app.
Qed.

Lemma wf_with_bucket t i b b' c :
  wf t → buckets t !! i = Some b →
  (∀ e, e ∈ b' → hash (key e) mod bucket_count t = i) →
  c = length (entries (with_bucket t i b' c)) →
  NoDup (key <$> entries (with_bucket t i b' c)) →
  wf (with_bucket t i b' c).
Proof.
  intros Hwf Hi Hh Hc Hnd. split; [|done| |done|exact (wf_mlf t Hwf)].
  - simpl. rewrite length_insert. by apply wf_length.
  - simpl. intros j bj e Hj He.
    apply list_lookup_insert_Some in Hj as [(-> & <- & _)|[Hne Hj]].
    + by apply Hh.
    + by apply (wf_home t Hwf j bj e).
Qed.

(** *** [insert] *)

(** [insert] of a key the table has. *)
Lemma insert_present k v t i e :
  length (buckets t) = bucket_count t → 0 < bucket_count t →
  list_find (λ e, key e = k) (home k t) = Some (i, e) →
  insert k v t
  = Ok (tt, with_bucket t (hash k mod bucket_count t)
              (<[i := mkEntry (key e) v]> (home k t)) (entry_count t)).
Proof.
  intros Hl Hb Hf. unfold insert, store_value. run.
  rewrite find_entry_ok, Hf by done. simpl.
  rewrite (index_Some _ _ _ (home_lookup k t Hl Hb)). simpl.
  apply list_find_Some in Hf as (Hi & _ & _).
  by rewrite (index_Some _ _ _ Hi).
Qed.

(** [insert] of a key the table does not have. *)
Lemma insert_absent k v t :
  length (buckets t) = bucket_count t → 0 < bucket_count t →
  list_find (λ e, key e = k) (home k t) = None →
  insert k v t
  = if fgt (load_factor (appended k v t)) (max_load_factor t)
    then rehash (bucket_count t * 2) (appended k v t)
    else Ok (tt, appended k v t).
Proof.
  intros Hl Hb Hf. unfold insert, push_back. run.
  rewrite find_entry_ok, Hf by done. simpl.
  rewrite hash_func_ok by done. simpl.
  rewrite (index_Some _ _ _ (home_lookup k t Hl Hb)). simpl.
  fold (with_bucket t (hash k mod bucket_count t)
          (home k t ++ [mkEntry k v]) (entry_count t + 1)).
  fold (appended k v t).
  by destruct (fgt _ _).
Qed.

Lemma entries_appended k v t :
  length (buckets t) = bucket_count t → 0 < bucket_count t →
  entries (appended k v t) ≡ₚ mkEntry k v :: entries t.
Proof.
  intros Hl Hb. pose proof (home_lookup k t Hl Hb) as Hi.
  unfold appended. rewrite (entries_with_bucket _ _ _ _ _ Hi).
  rewrite (entries_split _ _ _ Hi).
  rewrite <-(assoc_L (++) (home k t)). simpl.
  rewrite (assoc_L (++) _ (home k t)), <-Permutation_middle.
  by rewrite <-(assoc_L (++)).
Qed.

Lemma wf_appended k v t :
  wf t → 0 < bucket_count t →
  (∀ e, e ∈ entries t → key e ≠ k) → wf (appended k v t).
Proof.
  intros Hwf Hb Hno. pose proof (wf_length t Hwf) as Hl.
  pose proof (entries_appended k v t Hl Hb) as Hp.
  apply (wf_with_bucket t _ (home k t)); [done|by apply home_lookup|..].
  - intros e [He| ->%list_elem_of_singleton]%elem_of_app; [|done].
    apply (wf_home t Hwf _ (home k t)); [by apply home_lookup|done].
  - fold (appended k v t). rewrite Hp. simpl.
    rewrite (wf_count t Hwf). lia.
  - fold (appended k v t). rewrite Hp. simpl. apply NoDup_cons.
    split; [|by apply wf_unique].
    intros (e & Hk & He)%list_elem_of_fmap. by apply (Hno e).
Qed.

Lemma insert_ok k v t :
  wf t → 0 < bucket_count t → insert k v t = Ok (tt, inserted k v t).
Proof.
  intros Hwf Hb. pose proof (wf_length t Hwf) as Hl. unfold inserted.
  destruct (list_find _ _) as [[i e]|] eqn:Hf.
  - by apply insert_present.
  - rewrite insert_absent by done.
    destruct (fgt _ _); [|done].
    assert (wf (appended k v t)) as Hwf'.
    { apply wf_appended; [done..|]. by apply find_home_None. }
    apply rehash_ok; [apply (wf_mlf _ Hwf')|apply (wf_count _ Hwf')].
Qed.

Lemma entries_with_bucket_Permutation t i b b' c x y :
  buckets t !! i = Some b → x ++ b' ≡ₚ y ++ b →
  x ++ entries (with_bucket t i b' c) ≡ₚ y ++ entries t.
Proof.
  intros Hi Hp. rewrite (entries_with_bucket _ _ _ _ _ Hi).
  rewrite (entries_split _ _ _ Hi).
  rewrite (Permutation_app_swap_app x), (Permutation_app_swap_app y).
  by rewrite !(assoc_L (++) _ _ (mjoin (drop _ _))), Hp.
Qed.

Lemma overwrite_Permutation (l : list (@Entry K V)) i x y :
  l !! i = Some x → x :: <[i := y]> l ≡ₚ y :: l.
Proof.
  revert i. induction l as [|z l IH]; intros [|i] Hi; simplify_eq/=.
  - apply Permutation_swap.
  - rewrite Permutation_swap, IH by done. apply Permutation_swap.
Qed.

(** What [insert(k, v)] does to the entries: a table that has the key
    keeps its other entries, its entry count and its buckets, and holds
    [v] for the key; a table that does not have it gets one more entry. *)
Lemma entries_inserted k v t :
  wf t → 0 < bucket_count t →
  (∃ e r, key e = k ∧ entries t ≡ₚ e :: r
          ∧ entries (inserted k v t) ≡ₚ mkEntry k v :: r
          ∧ key <$> entries (inserted k v t) = key <$> entries t
          ∧ entry_count (inserted k v t) = entry_count t
          ∧ bucket_count (inserted k v t) = bucket_count t)
  ∨ ((∀ e, e ∈ entries t → key e ≠ k)
     ∧ entries (inserted k v t) ≡ₚ mkEntry k v :: entries t
     ∧ entry_count (inserted k v t) = entry_count t + 1).
Proof.
  intros Hwf Hb. pose proof (wf_length t Hwf) as Hl.
  pose proof (home_lookup k t Hl Hb) as Hh. unfold inserted.
  destruct (list_find _ _) as [[i e]|] eqn:Hf.
  - left. pose proof Hf as (Hi & Hk & _)%list_find_Some.
    destruct (proj1 (elem_of_Permutation (entries t) e)) as [r Hr].
    { apply elem_of_entries. eauto using list_elem_of_lookup_2. }
    exists e, r. split_and!; [done|done| | |done..].
    + apply (inj (e ::.)).
      rewrite (Permutation_swap (mkEntry k v) e r), <-Hr.
      apply (entries_with_bucket_Permutation t _ _ _ _ [e] [mkEntry k v]
               Hh).
      simpl. rewrite Hk. by apply overwrite_Permutation.
    + rewrite (entries_with_bucket _ _ _ _ _ Hh), (entries_split _ _ _ Hh).
      rewrite !fmap_app, list_fmap_insert. simpl.
      by rewrite (list_insert_id (key <$> home k t))
        by by rewrite list_lookup_fmap, Hi.
  - right. assert (∀ e, e ∈ entries t → key e ≠ k) as Hno
      by by apply find_home_None.
    split; [done|].
    assert (entries (appended k v t) ≡ₚ mkEntry k v :: entries t) as Hp
      by by apply entries_appended.
    destruct (fgt _ _); [|done].
    pose proof (wf_appended k v t Hwf Hb Hno) as Hwf'.
    rewrite entries_rehashed, entry_count_rehashed;
      [done|apply (wf_mlf _ Hwf')|apply (wf_count _ Hwf')].
Qed.

Lemma wf_inserted k v t :
  wf t → 0 < bucket_count t → wf (inserted k v t).
Proof.
  intros Hwf Hb. pose proof (wf_length t Hwf) as Hl.
  pose proof (home_lookup k t Hl Hb) as Hh.
  destruct (entries_inserted k v t Hwf Hb)
    as [(e & r & Hk & Hr & Hr' & Hks & Hc & Hbc)|(Hno & Hp & Hc)];
    unfold inserted in *;
    destruct (list_find _ _) as [[i e']|] eqn:Hf.
  - pose proof Hf as (Hi & Hk' & _)%list_find_Some.
    apply (wf_with_bucket t _ (home k t) _ _ Hwf Hh).
    + intros x [j Hj]%list_elem_of_lookup_1.
      apply list_lookup_insert_Some in Hj as [(_ & <- & _)|[_ Hj]].
      * simpl. by rewrite Hk'.
      * apply (wf_home t Hwf _ (home k t) x); [done|].
        eauto using list_elem_of_lookup_2.
    + rewrite <-(length_fmap key), Hks, length_fmap. by apply wf_count.
    + rewrite Hks. by apply wf_unique.
  - destruct (proj1 (find_home_None k t Hwf Hb) Hf e); [|done].
    rewrite Hr. by left.
  - destruct (proj1 (find_home_Some k e' t Hwf Hb)) as [He' Hk'];
      [by eauto|]. by destruct (Hno e').
  - destruct (fgt _ _); [apply wf_rehashed|]; by apply wf_appended.
Qed.

Lemma bucket_count_inserted k v t :
  0 < bucket_count t → 0 < bucket_count (inserted k v t).
Proof.
  intros Hb. unfold inserted.
  destruct (list_find _ _) as [[i e]|]; [done|].
  destruct (fgt _ _); [|done].
  rewrite bucket_count_rehashed. simpl. lia.
Qed.

(** [at] after [insert]. *)
Lemma at_inserted k v t :
  wf t → 0 < bucket_count t →
  at_ k (inserted k v t) = Ok (v, inserted k v t).
Proof.
  intros Hwf Hb. apply at_present;
    [by apply wf_inserted|by apply bucket_count_inserted|].
  destruct (entries_inserted k v t Hwf Hb)
    as [(e & r & _ & _ & Hp & _)|(_ & Hp & _)]; rewrite Hp; by left.
Qed.



(** *** [erase] *)

Lemma swap_pop_snoc i (b : list (@Entry K V)) x :
  i ≤ length b →
  swap_pop i (b ++ [x]) = if decide (i = length b) then b else <[i := x]> b.
Proof.
  intros Hi. unfold swap_pop, pop_back. rewrite last_snoc, length_app.
  simpl. destruct (decide (i = length b)) as [->|Hne].
  - rewrite decide_False by lia. rewrite length_app. simpl.
    by rewrite take_app_length' by lia.
  - rewrite decide_True by lia. rewrite insert_app_l by lia.
    rewrite length_app, length_insert. simpl.
    by rewrite take_app_length' by (rewrite length_insert; lia).
Qed.

(** The swap with the last entry removes the entry of the position. *)
Lemma swap_pop_Permutation i (b : list (@Entry K V)) e :
  b !! i = Some e → e :: swap_pop i b ≡ₚ b.
Proof.
  intros Hi. pose proof (lookup_lt_Some _ _ _ Hi) as Hlt.
  destruct (last b) as [x|] eqn:Hlast.
  2:{ apply last_None in Hlast as ->. simpl in Hlt. lia. }
  apply last_Some in Hlast as [b0 ->].
  rewrite length_app in Hlt. simpl in Hlt.
  rewrite swap_pop_snoc by lia.
  destruct (decide (i = length b0)) as [->|Hne].
  - rewrite lookup_app_r, Nat.sub_diag in Hi by lia. simplify_eq/=.
    by rewrite Permutation_cons_append.
  - rewrite lookup_app_l in Hi by lia.
    rewrite overwrite_Permutation by done.
    by rewrite Permutation_cons_append.
Qed.

Lemma length_swap_pop i (b : list (@Entry K V)) :
  i < length b → length (swap_pop i b) + 1 = length b.
Proof.
  intros Hi. destruct (lookup_lt_is_Some_2 b i Hi) as [e He].
  rewrite <-(swap_pop_Permutation i b e He) at 2. simpl. lia.
Qed.

Lemma entries_erased bi i b e t :
  buckets t !! bi = Some b → b !! i = Some e →
  e :: entries (erased bi i t) ≡ₚ entries t.
Proof.
  intros Hb Hi. unfold erased. rewrite Hb. simpl.
  apply (entries_with_bucket_Permutation t bi b _ _ [e] [] Hb).
  simpl. by apply swap_pop_Permutation.
Qed.

Lemma entry_count_erased bi i b e t :
  wf t → buckets t !! bi = Some b → b !! i = Some e →
  entry_count (erased bi i t) + 1 = entry_count t.
Proof.
  intros Hwf Hb Hi. simpl. rewrite (wf_count t Hwf).
  rewrite <-(entries_erased bi i b e t Hb Hi). simpl. lia.
Qed.

Lemma wf_erased bi i b e t :
  wf t → buckets t !! bi = Some b → b !! i = Some e →
  wf (erased bi i t).
Proof.
  intros Hwf Hb Hi. pose proof (entries_erased bi i b e t Hb Hi) as Hp.
  pose proof (entry_count_erased bi i b e t Hwf Hb Hi) as Hc.
  pose proof (wf_count t Hwf) as Hc'.
  pose proof (wf_unique t Hwf) as Hnd.
  rewrite <-Hp in Hc', Hnd. simpl in Hc', Hnd.
  apply (wf_with_bucket t bi b _ _ Hwf Hb);
    fold (erased bi i t); rewrite ?Hb; simpl.
  - intros x Hx. apply (wf_home t Hwf bi b x Hb).
    rewrite <-(swap_pop_Permutation i b e Hi). by right.
  - change (decr (entry_count t)) with (entry_count (erased bi i t)). lia.
  - by apply NoDup_cons in Hnd as [_ ?].
Qed.

(** The key of an erased entry is no longer in the table. *)
Lemma erased_key_gone bi i b e t :
  wf t → buckets t !! bi = Some b → b !! i = Some e →
  ∀ x, x ∈ entries (erased bi i t) → key x ≠ key e.
Proof.
  intros Hwf Hb Hi x Hx Hk.
  pose proof (wf_unique t Hwf) as Hnd.
  rewrite <-(entries_erased bi i b e t Hb Hi) in Hnd. simpl in Hnd.
  apply NoDup_cons in Hnd as [Hnotin _]. apply Hnotin.
  rewrite <-Hk. apply list_elem_of_fmap. eauto.
Qed.

Lemma erase_ok k t :
  length (buckets t) = bucket_count t → 0 < bucket_count t →
  erase k t
  = Ok (match list_find (λ e, key e = k) (home k t) with
        | Some (i, _) => (1, erased (hash k mod bucket_count t) i t)
        | None => (0, t)
        end).
Proof.
  intros Hl Hb. unfold erase, erased. run.
  rewrite hash_func_ok by done. simpl.
  pose proof (home_lookup k t Hl Hb) as Hh.
  rewrite (index_Some _ _ _ Hh), Hh. simpl.
  by destruct (list_find _ _) as [[i e]|].
Qed.

(** *** Traversal *)

Lemma cursors_from_app this bi bs1 bs2 :
  cursors_from this bi (bs1 ++ bs2)
  = cursors_from this bi bs1 ++ cursors_from this (bi + length bs1) bs2.
Proof.
  revert bi. induction bs1 as [|b bs1 IH]; intros bi; simpl.
  - by rewrite Nat.add_0_r.
  - rewrite IH, <-(assoc_L (++)). do 3 f_equal. lia.
Qed.

Lemma length_cursors_from this bi bs :
  length (cursors_from this bi bs) = length (mjoin bs).
Proof.
  revert bi. induction bs as [|b bs IH]; intros bi; simpl; [done|].
  by rewrite !length_app, length_fmap, length_seq, IH.
Qed.

Lemma cursors_split this t bi b :
  buckets t !! bi = Some b →
  cursors this t
  = cursors_from this 0 (take bi (buckets t))
    ++ (mkIterator (Some this) bi <$> seq 0 (length b))
    ++ cursors_from this (S bi) (drop (S bi) (buckets t)).
Proof.
  intros Hb. unfold cursors.
  rewrite <-(take_drop_middle _ _ _ Hb) at 1.
  rewrite cursors_from_app. simpl.
  rewrite length_take_le by eauto using Nat.lt_le_incl, lookup_lt_Some.
  done.
Qed.

(** The slot [(bi, i)] of an entry is the cursor of rank [rank t bi i]. *)
Lemma cursors_rank this t bi b i :
  buckets t !! bi = Some b → i < length b →
  cursors this t !! rank t bi i = Some (mkIterator (Some this) bi i).
Proof.
  intros Hb Hi. rewrite (cursors_split this t bi b Hb). unfold rank.
  rewrite lookup_app_r by (rewrite length_cursors_from; lia).
  rewrite length_cursors_from.
  replace (_ + i - _) with i by lia.
  rewrite lookup_app_l by by rewrite length_fmap, length_seq.
  by rewrite list_lookup_fmap, lookup_seq_lt.
Qed.

(** The loop that skips empty buckets stops at the first bucket with an
    entry, or at [bucket_count]. *)
Lemma skip_empty_loop_ok this m left b :
  length (buckets m) = bucket_count m →
  left = bucket_count m - b → b ≤ bucket_count m →
  ∃ r, skip_empty_loop m left b = Ok r ∧ b ≤ r ≤ bucket_count m
       ∧ head (cursors_from this b (drop b (buckets m)))
         = (if r <? bucket_count m then Some (mkIterator (Some this) r 0)
            else None).
Proof.
  intros Hl. revert b. induction left as [|left IH]; intros b Hleft Hb.
  { exists b. simpl. split_and!; [done|lia..|].
    rewrite drop_ge by lia. simpl.
    by destruct (Nat.ltb_spec b (bucket_count m)); [lia|]. }
  simpl. destruct (Nat.ltb_spec b (bucket_count m)) as [Hlt|]; [|lia].
  destruct (lookup_lt_is_Some_2 (buckets m) b) as [bk Hbk]; [lia|].
  rewrite (index_Some _ _ _ Hbk). simpl.
  rewrite (drop_S _ _ _ Hbk). simpl.
  destruct bk as [|e bk].
  - destruct (IH (b + 1)) as (r & Hr & Hle & Hhd); [lia..|].
    exists r. split_and!; [done|lia..|].
    simpl. by rewrite <-Nat.add_1_r.
  - exists b. split_and!; [done|lia..|]. simpl.
    by destruct (Nat.ltb_spec b (bucket_count m)); [|lia].
Qed.

Lemma skip_empty_ok this m b :
  length (buckets m) = bucket_count m → b ≤ bucket_count m →
  ∃ r, skip_empty m b = Ok r ∧ b ≤ r ≤ bucket_count m
       ∧ head (cursors_from this b (drop b (buckets m)))
         = (if r <? bucket_count m then Some (mkIterator (Some this) r 0)
            else None).
Proof. intros Hl Hb. by apply skip_empty_loop_ok. Qed.

(** [begin()] is the first cursor of the traversal, [end()] when there is
    none. *)
Lemma begin_ok this t :
  length (buckets t) = bucket_count t →
  begin this t = Ok (default (end_ this t) (head (cursors this t))).
Proof.
  intros Hl. unfold begin, cursors.
  destruct (skip_empty_ok this t 0 Hl) as (r & -> & _ & Hhd); [lia|].
  rewrite drop_0 in Hhd. simpl. rewrite Hhd.
  by destruct (r <? bucket_count t).
Qed.

(** [operator++] moves a cursor of the traversal to the next one, and the
    last one to [end()]. *)
Lemma Iterator_incr_ok this t n it :
  length (buckets t) = bucket_count t →
  cursors this t !! n = Some it →
  Iterator_incr t it
  = Ok (default (end_ this t) (cursors this t !! S n)).
Proof.
  intros Hl. unfold cursors.
  assert (∀ bs bi, bi + length bs = bucket_count t →
    drop bi (buckets t) = bs →
    cursors_from this bi bs !! n = Some it →
    Iterator_incr t it
    = Ok (default (end_ this t) (cursors_from this bi bs !! S n))) as Hgen.
  2:{ apply Hgen; [by rewrite Hl|done]. }
  clear Hl. intros bs. revert n.
  induction bs as [|b bs IH]; intros n bi Hlen Hdrop Hn; [done|].
  simpl in *.
  assert (buckets t !! bi = Some b) as Hb.
  { rewrite <-(Nat.add_0_r bi), <-lookup_drop, Hdrop. done. }
  assert (drop (S bi) (buckets t) = bs) as Hdrop'.
  { by rewrite (drop_S _ _ _ Hb) in Hdrop; simplify_eq. }
  assert (length (buckets t) = bucket_count t) as Hl.
  { rewrite <-(take_drop bi (buckets t)), length_app, Hdrop.
    rewrite length_take_le by eauto using Nat.lt_le_incl, lookup_lt_Some.
    simpl. lia. }
  destruct (decide (n < length b)) as [Hlt|Hge].
  - rewrite lookup_app_l in Hn by by rewrite length_fmap, length_seq.
    rewrite list_lookup_fmap, lookup_seq_lt in Hn by done.
    apply (inj Some) in Hn as <-. unfold Iterator_incr. simpl.
    destruct (Nat.leb_spec (bucket_count t) bi); [lia|].
    rewrite (index_Some _ _ _ Hb). simpl.
    destruct (Nat.ltb_spec (n + 1) (length b)) as [Hlt'|Hge'].
    + rewrite lookup_app_l by (rewrite length_fmap, length_seq; lia).
      rewrite list_lookup_fmap, lookup_seq_lt by lia. simpl.
      by rewrite Nat.add_1_r.
    + rewrite lookup_app_r by (rewrite length_fmap, length_seq; lia).
      rewrite length_fmap, length_seq.
      replace (S n - length b) with 0 by lia.
      destruct (skip_empty_ok this t (bi + 1) Hl) as (r & -> & Hr & Hhd);
        [lia|]. simpl.
      rewrite Nat.add_1_r, Hdrop' in Hhd.
      rewrite <-head_lookup, Hhd.
      destruct (Nat.ltb_spec r (bucket_count t)); [done|].
      unfold end_. by replace r with (bucket_count t) by lia.
  - rewrite lookup_app_r in Hn by (rewrite length_fmap, length_seq; lia).
    rewrite lookup_app_r by (rewrite length_fmap, length_seq; lia).
    rewrite length_fmap, length_seq in *.
    replace (S n - length b) with (S (n - length b)) by lia.
    apply (IH _ (S bi)); [lia|done..].
Qed.

Lemma Iterator_deref_ok this t bi b i e :
  bi < bucket_count t →
  buckets t !! bi = Some b → b !! i = Some e →
  Iterator_deref t (mkIterator (Some this) bi i) = Ok e.
Proof.
  intros Hl Hb Hi. unfold Iterator_deref. simpl.
  pose proof (lookup_lt_Some _ _ _ Hi).
  destruct (Nat.leb_spec (bucket_count t) bi); [lia|].
  rewrite (index_Some _ _ _ Hb). simpl.
  destruct (Nat.leb_spec (length b) i); [lia|]. by apply index_Some.
Qed.

(** *** [erase(Iterator)] *)

Lemma rank_erased t bi i j : rank (erased bi i t) bi j = rank t bi j.
Proof. unfold rank, erased. simpl. by rewrite take_insert_ge. Qed.

(** [erase(pos)] leaves the table [erased] and returns the cursor that
    has, in the traversal of that table, the rank the erased entry had:
    the entry moved into the slot, or the first entry of a later bucket,
    or [end()]. *)
Lemma erase_pos_ok this t bi b i :
  length (buckets t) = bucket_count t →
  buckets t !! bi = Some b → i < length b →
  erase_pos this (mkIterator (Some this) bi i) t
  = Ok (default (end_ this (erased bi i t))
          (cursors this (erased bi i t) !! rank t bi i),
        erased bi i t).
Proof.
  intros Hl Hb Hi. pose proof (lookup_lt_Some _ _ _ Hb) as Hbi.
  unfold erase_pos. run.
  rewrite bool_decide_false by (by intros []).
  destruct (Nat.leb_spec (bucket_count t) bi); [lia|].
  rewrite (index_Some _ _ _ Hb). simpl.
  destruct (Nat.leb_spec (length b) i); [lia|].
  assert (with_bucket t bi (swap_pop i b) (decr (entry_count t))
          = erased bi i t) as Het by (unfold erased; by rewrite Hb).
  fold (with_bucket t bi (swap_pop i b) (decr (entry_count t))).
  rewrite Het.
  assert (buckets (erased bi i t) !! bi = Some (swap_pop i b)) as Hb'.
  { rewrite <-Het. simpl. by rewrite list_lookup_insert_eq. }
  assert (length (buckets (erased bi i t)) = bucket_count (erased bi i t))
    as Hl' by (simpl; by rewrite length_insert).
  pose proof (length_swap_pop i b Hi) as Hlen.
  rewrite <-(rank_erased t bi i i).
  destruct (Nat.ltb_spec i (length (swap_pop i b))) as [Hlt|Hge].
  - by rewrite (cursors_rank this _ bi _ i Hb' Hlt).
  - rewrite (cursors_split this _ bi _ Hb'). unfold rank.
    rewrite lookup_app_r by (rewrite length_cursors_from; lia).
    rewrite length_cursors_from.
    replace (_ + i - _) with i by lia.
    rewrite lookup_app_r by (rewrite length_fmap, length_seq; lia).
    rewrite length_fmap, length_seq.
    replace (i - _) with 0 by lia.
    destruct (skip_empty_ok this (erased bi i t) (bi + 1) Hl')
      as (r & -> & Hr & Hhd); [simpl; lia|].
    rewrite Nat.add_1_r in Hhd. rewrite <-head_lookup, Hhd. simpl.
    by destruct (r <? bucket_count t).
Qed.

(** *** Bucket cursors *)

Lemma begin_bucket_ok this t n b :
  buckets t !! n = Some b → n < bucket_count t →
  begin_bucket this n t
  = Ok (if b is [] then end_ this t else mkIterator (Some this) n 0, t).
Proof.
  intros Hb Hn. unfold begin_bucket. run.
  destruct (Nat.leb_spec (bucket_count t) n); [lia|].
  rewrite (index_Some _ _ _ Hb). simpl. by destruct b.
Qed.

Lemma end_bucket_ok this t n b :
  buckets t !! n = Some b → n < bucket_count t →
  end_bucket this n t = Ok (mkIterator (Some this) n (length b), t).
Proof.
  intros Hb Hn. unfold end_bucket. run.
  destruct (Nat.leb_spec (bucket_count t) n); [lia|].
  by rewrite (index_Some _ _ _ Hb).
Qed.

(** Within a bucket an increment moves to the next position. *)
Lemma advance_in_bucket this t n b i j :
  buckets t !! n = Some b → n < bucket_count t → i + j < length b →
  advance t j (mkIterator (Some this) n i)
  = Ok (mkIterator (Some this) n (i + j)).
Proof.
  intros Hb Hn. revert i. induction j as [|j IH]; intros i Hi; simpl.
  { by rewrite Nat.add_0_r. }
  unfold Iterator_incr. simpl.
  destruct (Nat.leb_spec (bucket_count t) n); [lia|].
  rewrite (index_Some _ _ _ Hb). simpl.
  destruct (Nat.ltb_spec (i + 1) (length b)); [|lia]. simpl.
  rewrite IH by lia. do 2 f_equal. lia.
Qed.

(** *** The load factor *)

Lemma quotient_pos t :
  0 < bucket_count t →
  fdiv (of_size_t (entry_count t)) (of_size_t (bucket_count t))
  = Finite (of_size_t (entry_count t) / of_size_t (bucket_count t)).
Proof.
  intros Hb. unfold fdiv.
  by rewrite Qeq_bool_pos by by apply of_size_t_pos.
Qed.

Lemma load_factor_pos t :
  0 < bucket_count t →
  load_factor t
  = Finite (round 24 (round 53
              (of_size_t (entry_count t) / of_size_t (bucket_count t)))).
Proof. intros Hb. unfold load_factor. by rewrite quotient_pos. Qed.

Lemma load_nonneg t :
  0 < bucket_count t →
  (0 <= of_size_t (entry_count t) / of_size_t (bucket_count t))%Q.
Proof. intros Hb. by apply quotient_nonneg, of_size_t_pos. Qed.

(** The comparison of [insert] and of [set_max_load_factor], when it
    fails. *)
Lemma load_factor_le_max_not_gt t :
  0 < bucket_count t →
  fgt (load_factor t) (max_load_factor t) = false → load_factor_le_max t.
Proof.
  intros Hb. unfold load_factor_le_max. rewrite load_factor_pos by done.
  simpl.
  unfold Qlt_bool. intros Hgt%negb_false_iff. by apply Qle_bool_iff.
Qed.

(** Rounding does not take the load factor above a threshold that is a
    float. *)
Lemma load_factor_le_max_exact t :
  0 < bucket_count t → is_float (max_load_factor t) →
  load_le_max t → load_factor_le_max t.
Proof.
  intros Hb Hf. unfold load_le_max, load_factor_le_max.
  rewrite load_factor_pos, quotient_pos by done. intros Hle.
  apply round_twice_le; [by apply load_nonneg|done..].
Qed.

(** The quotient itself may pass the threshold, by less than the step to
    the next float. *)
Lemma load_factor_le_max_near t :
  0 < bucket_count t → (0 < max_load_factor t)%Q →
  load_factor_le_max t → load_below_floats_above_max t.
Proof.
  intros Hb Hm. unfold load_factor_le_max.
  rewrite load_factor_pos by done. intros Hle. split; [done|].
  intros f Hf Hlt.
  destruct (Qlt_le_dec f
              (of_size_t (entry_count t) / of_size_t (bucket_count t)))
    as [Hgt|]; [|done].
  exfalso. apply (Qlt_irrefl f). eapply Qle_lt_trans; [|exact Hlt].
  eapply Qle_trans; [|exact Hle].
  apply round_twice_ge; [|by apply Qlt_le_weak|done].
  apply Qlt_le_weak. by eapply Qlt_trans.
Qed.

(** The growth of [insert] and of [set_max_load_factor]: twice the
    buckets, or more when the threshold asks for more. *)
Lemma load_le_max_grown t :
  (0 < max_load_factor t)%Q → 0 < bucket_count t →
  load_le_max (rehashed (bucket_count t * 2) t).
Proof.
  intros Hm Hb. unfold load_le_max.
  rewrite quotient_pos by (rewrite bucket_count_rehashed; lia).
  rewrite entry_count_rehashed, bucket_count_rehashed,
    max_load_factor_rehashed.
  apply min_required_enough; [done|lia..].
Qed.

Lemma load_factor_le_max_ext t t' :
  entry_count t' = entry_count t → bucket_count t' = bucket_count t →
  max_load_factor t' = max_load_factor t →
  load_factor_le_max t → load_factor_le_max t'.
Proof.
  unfold load_factor_le_max, load_factor. by intros -> -> ->.
Qed.

Lemma max_load_factor_inserted k v t :
  max_load_factor (inserted k v t) = max_load_factor t.
Proof.
  unfold inserted. destruct (list_find _ _) as [[i e]|]; [done|].
  destruct (fgt _ _); [|done]. by rewrite max_load_factor_rehashed.
Qed.

(** [insert] keeps the load factor at or below a threshold that is a
    float: it compares, and the rehash leaves the quotient itself at or
    below. *)
Lemma load_factor_le_max_inserted k v t :
  wf t → 0 < bucket_count t → is_float (max_load_factor t) →
  load_factor_le_max t → load_factor_le_max (inserted k v t).
Proof.
  intros Hwf Hb Hfl Hload. unfold inserted.
  destruct (list_find _ _) as [[i e]|] eqn:Hf.
  - by apply (load_factor_le_max_ext t).
  - destruct (fgt _ _) eqn:Hgt.
    + apply load_factor_le_max_exact.
      * rewrite bucket_count_rehashed. simpl. lia.
      * by rewrite max_load_factor_rehashed.
      * apply (load_le_max_grown (appended k v t));
          [exact (wf_mlf t Hwf)|done].
    + by apply load_factor_le_max_not_gt.
Qed.

(** *** [set_max_load_factor] *)

Lemma wf_with_max_load_factor ml t :
  wf t → (0 < ml)%Q → wf (with_max_load_factor ml t).
Proof. intros [] Hml. by split. Qed.

Lemma set_max_load_factor_ok ml t :
  wf t → (0 < ml)%Q → set_max_load_factor ml t = Ok (tt, reloaded ml t).
Proof.
  intros Hwf Hml. unfold set_max_load_factor, reloaded. run.
  fold (with_max_load_factor ml t).
  destruct (fgt _ _); [|done].
  pose proof (wf_with_max_load_factor ml t Hwf Hml) as Hwf'.
  apply rehash_ok; [apply (wf_mlf _ Hwf')|apply (wf_count _ Hwf')].
Qed.

Lemma wf_reloaded ml t : wf t → (0 < ml)%Q → wf (reloaded ml t).
Proof.
  intros Hwf Hml. unfold reloaded.
  destruct (fgt _ _); [apply wf_rehashed|];
    by apply wf_with_max_load_factor.
Qed.

Lemma bucket_count_reloaded ml t :
  0 < bucket_count t → 0 < bucket_count (reloaded ml t).
Proof.
  intros Hb. unfold reloaded. destruct (fgt _ _); [|done].
  rewrite bucket_count_rehashed. simpl. lia.
Qed.

Lemma max_load_factor_reloaded ml t : max_load_factor (reloaded ml t) = ml.
Proof.
  unfold reloaded. destruct (fgt _ _); [|done].
  by rewrite max_load_factor_rehashed.
Qed.

Lemma load_factor_le_max_reloaded ml t :
  (0 < ml)%Q → is_float ml → 0 < bucket_count t →
  load_factor_le_max (reloaded ml t).
Proof.
  intros Hml Hfl Hb. unfold reloaded. destruct (fgt _ _) eqn:Hgt.
  - apply load_factor_le_max_exact.
    + rewrite bucket_count_rehashed. simpl. lia.
    + by rewrite max_load_factor_rehashed.
    + by apply (load_le_max_grown (with_max_load_factor ml t)).
  - by apply load_factor_le_max_not_gt.
Qed.

(** *** Construction *)

Lemma entries_empty_table cap mlf : entries (@empty_table K V cap mlf) = [].
Proof.
  unfold entries. simpl. apply join_nil_2, Forall_forall.
  by intros b ?%elem_of_replicate_inv.
Qed.

Lemma wf_empty_table cap mlf : (0 < mlf)%Q → wf (@empty_table K V cap mlf).
Proof.
  intros Hm. split; rewrite ?entries_empty_table; simpl.
  - apply length_replicate.
  - done.
  - intros i b e [-> _]%lookup_replicate He. by apply elem_of_nil in He.
  - constructor.
  - done.
Qed.


Lemma HashMap_cap_mlf_ok cap mlf :
  0 < cap → (0 < mlf)%Q →
  HashMap_cap_mlf cap mlf = Ok (@empty_table K V cap mlf).
Proof.
  intros Hc Hm. unfold HashMap_cap_mlf. simpl.
  destruct (Nat.eqb_spec cap 0); [lia|].
  destruct (Qle_bool mlf 0) eqn:E; [|done].
  apply Qle_bool_iff in E. by destruct (Qlt_not_le _ _ Hm).
Qed.

Lemma constructed_empty_table t :
  constructed t →
  ∃ cap mlf, 0 < cap ∧ (0 < mlf)%Q ∧ t = empty_table cap mlf.
Proof.
  intros [->|[[cap Hc]|(cap & mlf & Hc)]].
  - exists 32, default_max_load_factor. split_and!; [lia|done..].
  - exists cap, default_max_load_factor. unfold HashMap_cap in Hc.
    simpl in Hc. destruct (Nat.eqb_spec cap 0); [done|].
    split_and!; [lia|done|]. by injection Hc as <-.
  - exists cap, mlf. unfold HashMap_cap_mlf in Hc. simpl in Hc.
    destruct (Nat.eqb_spec cap 0); [done|].
    destruct (Qle_bool mlf 0) eqn:E; [done|].
    split_and!; [lia| |by injection Hc as <-].
    apply Qnot_le_lt. intros Hle%Qle_bool_iff. congruence.
Qed.

(** *** Copies *)

Lemma push_back_ok i e s cur :
  buckets s !! i = Some cur →
  push_back i e s
  = Ok (tt, mkHashMap (<[i := cur ++ [e]]> (buckets s)) (bucket_count s)
              (entry_count s) (max_load_factor s)).
Proof.
  intros Hi. unfold push_back. run. by rewrite (index_Some _ _ _ Hi).
Qed.

Lemma for_each_push_back i (b : list (@Entry K V)) s cur :
  buckets s !! i = Some cur →
  for_each b (λ e, push_back i (mkEntry (key e) (value e))) s
  = Ok (tt, mkHashMap (<[i := cur ++ b]> (buckets s)) (bucket_count s)
              (entry_count s) (max_load_factor s)).
Proof.
  revert s cur. induction b as [|e b IH]; intros s cur Hi; simpl.
  { run. rewrite app_nil_r, list_insert_id by done. by destruct s. }
  unfold mbind at 1, M_bind at 1. rewrite (push_back_ok i _ s cur Hi).
  rewrite (IH _ (cur ++ [e])); simpl.
  - rewrite list_insert_insert_eq, <-(assoc_L (++)). by destruct e.
  - destruct e. simpl.
    by rewrite list_lookup_insert_eq by eauto using lookup_lt_Some.
Qed.

Lemma copy_loop_ok other n : ∀ a s,
  a + n = length (buckets other) →
  buckets s = take a (buckets other) ++ replicate n [] →
  for_each (seq a n) (λ i,
    b ← read (λ _, index (buckets other) i);
    for_each b (λ e, push_back i (mkEntry (key e) (value e)))) s
  = Ok (tt, mkHashMap (buckets other) (bucket_count s) (entry_count s)
              (max_load_factor s)).
Proof.
  induction n as [|n IH]; intros a s Hlen Hs; simpl.
  { run. rewrite take_ge, app_nil_r in Hs by lia. rewrite <-Hs.
    by destruct s. }
  run. destruct (lookup_lt_is_Some_2 (buckets other) a) as [b Hb]; [lia|].
  rewrite (index_Some _ _ _ Hb). simpl.
  rewrite (for_each_push_back a b s []); simpl.
  - rewrite IH; simpl; [done|lia|].
    rewrite Hs, (take_S_r _ _ _ Hb), <-(assoc_L (++)). simpl.
    rewrite <-(Nat.add_0_r a) at 1.
    rewrite <-(length_take_le (buckets other) a) at 1 by lia.
    by rewrite insert_app_r.
  - rewrite Hs, lookup_app_r by (rewrite length_take_le; lia).
    rewrite length_take_le, Nat.sub_diag by lia. done.
Qed.

Lemma copy_entries_ok other s :
  length (buckets other) = bucket_count other →
  buckets s = replicate (bucket_count other) [] →
  copy_entries other s
  = Ok (tt, mkHashMap (buckets other) (bucket_count s) (entry_count s)
              (max_load_factor s)).
Proof.
  intros Hl Hs. unfold copy_entries. apply copy_loop_ok; [lia|].
  by rewrite take_0.
Qed.

Lemma HashMap_copy_ok other :
  length (buckets other) = bucket_count other →
  HashMap_copy other
  = Ok (mkHashMap (buckets other) (bucket_count other) (entry_count other)
          default_max_load_factor).
Proof.
  intros Hl. unfold HashMap_copy. by rewrite copy_entries_ok.
Qed.

Lemma copy_assign_ok this that other t :
  length (buckets other) = bucket_count other → this ≠ that →
  copy_assign this that other t
  = Ok (tt, mkHashMap (buckets other) (bucket_count other)
              (entry_count other) (max_load_factor t)).
Proof.
  intros Hl Hne. unfold copy_assign, clear.
  rewrite bool_decide_false by done. run.
  by rewrite copy_entries_ok.
Qed.

Lemma copy_assign_self this other t :
  copy_assign this this other t = Ok (tt, t).
Proof. unfold copy_assign. by rewrite bool_decide_true. Qed.

(** *** The growth of [insert], in numbers *)

Lemma insert_fresh k v t :
  wf t → 0 < bucket_count t → (∀ e, e ∈ entries t → key e ≠ k) →
  insert k v t = Ok (tt, inserted k v t)
  ∧ wf (inserted k v t)
  ∧ entries (inserted k v t) ≡ₚ mkEntry k v :: entries t
  ∧ entry_count (inserted k v t) = entry_count t + 1
  ∧ max_load_factor (inserted k v t) = max_load_factor t
  ∧ bucket_count (inserted k v t) = grown_bucket_count t.
Proof.
  intros Hwf Hb Hno.
  split_and!; [by apply insert_ok|by apply wf_inserted|..].
  - destruct (entries_inserted k v t Hwf Hb)
      as [(e & r & Hk & Hr & _)|(_ & Hp & _)]; [|done].
    destruct (Hno e); [|done]. rewrite Hr. by left.
  - destruct (entries_inserted k v t Hwf Hb)
      as [(e & r & Hk & Hr & _)|(_ & _ & Hc)]; [|done].
    destruct (Hno e); [|done]. rewrite Hr. by left.
  - unfold inserted.
    rewrite (proj2 (find_home_None k t Hwf Hb) Hno).
    destruct (fgt _ _); [|done]. by rewrite max_load_factor_rehashed.
  - unfold inserted, grown_bucket_count.
    rewrite (proj2 (find_home_None k t Hwf Hb) Hno).
    change (load_factor (appended k v t))
      with (to_float (to_double (fdiv (of_size_t (entry_count t + 1))
                                   (of_size_t (bucket_count t))))).
    destruct (fgt _ _); [|done]. by rewrite bucket_count_rehashed.
Qed.

Lemma find_ok this k t :
  length (buckets t) = bucket_count t → 0 < bucket_count t →
  find this k t
  = Ok (match list_find (λ e, key e = k) (home k t) with
        | Some (i, _) =>
            mkIterator (Some this) (hash k mod bucket_count t) i
        | None => end_ this t
        end, t).
Proof.
  intros Hl Hb. unfold find. run. rewrite hash_func_ok by done. simpl.
  rewrite (index_Some _ _ _ (home_lookup k t Hl Hb)). simpl.
  by destruct (list_find _ _) as [[i e]|].
Qed.

(** ** Sequences of insertions and threshold changes *)

Lemma load_factor_le_max_no_entry t :
  0 < bucket_count t → (0 < max_load_factor t)%Q → entry_count t = 0 →
  load_factor_le_max t.
Proof.
  intros Hb Hm He. unfold load_factor_le_max.
  rewrite load_factor_pos by done.
  eapply Qle_trans; [|apply Qlt_le_weak, Hm].
  apply round_twice_le; [by apply load_nonneg| |apply is_float_0].
  rewrite He. unfold Qdiv. by rewrite Qmult_0_l.
Qed.

(** One operation, on a table that is well formed, has a bucket, a
    threshold that is a float and a load factor at or below it: the
    operation returns and leaves such a table. *)
Lemma apply_op_ok o t :
  wf t → 0 < bucket_count t → is_float (max_load_factor t) →
  load_factor_le_max t → positive_op o → float_op o →
  ∃ t', apply_op o t = Ok (tt, t') ∧ wf t' ∧ 0 < bucket_count t'
        ∧ is_float (max_load_factor t') ∧ load_factor_le_max t'
        ∧ took_effect o t'.
Proof.
  intros Hwf Hb Hfl Hload Ho Hfo. destruct o as [k v|ml]; simpl in *.
  - exists (inserted k v t).
    split_and!; [by apply insert_ok|by apply wf_inserted|
      by apply bucket_count_inserted|by rewrite max_load_factor_inserted|
      by apply load_factor_le_max_inserted|by apply at_inserted].
  - exists (reloaded ml t).
    split_and!; [by apply set_max_load_factor_ok|by apply wf_reloaded|
      by apply bucket_count_reloaded|by rewrite max_load_factor_reloaded|
      by apply load_factor_le_max_reloaded|
      by apply max_load_factor_reloaded].
Qed.

Lemma apply_ops_ok ops : ∀ t,
  wf t → 0 < bucket_count t → is_float (max_load_factor t) →
  load_factor_le_max t → Forall positive_op ops → Forall float_op ops →
  ∃ t', for_each ops apply_op t = Ok (tt, t') ∧ wf t'
        ∧ 0 < bucket_count t' ∧ load_factor_le_max t'
        ∧ ∀ ops' o, ops = ops' ++ [o] → took_effect o t'.
Proof.
  induction ops as [|o ops IH]; intros t Hwf Hb Hfl Hload Hops Hfops.
  { exists t. split_and!; [done..|]. by intros [|??] ? ?. }
  apply Forall_cons in Hops as [Ho Hops].
  apply Forall_cons in Hfops as [Hfo Hfops].
  destruct (apply_op_ok o t Hwf Hb Hfl Hload Ho Hfo)
    as (t1 & Ht1 & Hwf1 & Hb1 & Hfl1 & Hl1 & He1).
  destruct (IH t1 Hwf1 Hb1 Hfl1 Hl1 Hops Hfops)
    as (t' & Ht' & Hwf' & Hb' & Hl' & He').
  exists t'. split_and!; [|done..|].
  { simpl. run. by rewrite Ht1. }
  intros ops' o' Heq.
  destruct ops' as [|o'' ops'']; simpl in Heq; injection Heq as -> Heq.
  - subst ops. injection Ht' as <-. exact He1.
  - by apply (He' ops'').
Qed.

(** ** The operations, one by one *)

(** C1, amended. From any table built by the default constructor or from
    a capacity (both insist on a strictly positive threshold), which is a
    float, along any sequence of [insert] and [set_max_load_factor(v)] with
    a float [v > 0] that at no step has more buckets than a [size_t]
    counts, the first [n] operations run to the end, for every [n], and
    leave a table where the float [load_factor()] returns is at most
    [max_load_factor]: the comparison the source makes holds after every
    operation.  The quotient [entry_count / bucket_count] itself may pass
    the threshold, but is at most every float above it.  The operation
    that came last was carried out, not rejected: the inserted value is
    what [at] returns, the threshold is the one that was set. *)
Theorem load_factor_invariant t0 ops :
  constructed t0 → is_float (max_load_factor t0) →
  Forall positive_op ops → Forall float_op ops →
  within_size_t apply_op ops t0 →
  ∀ n, ∃ t, for_each (take n ops) apply_op t0 = Ok (tt, t)
            ∧ load_factor_le_max t
            ∧ load_below_floats_above_max t
            ∧ ∀ ops' o, take n ops = ops' ++ [o] → took_effect o t.
Proof.
  intros (cap & mlf & Hc & Hm & ->)%constructed_empty_table Hfl Hops Hfops
    _ n.
  destruct (apply_ops_ok (take n ops) (empty_table cap mlf))
    as (t & Ht & Hwf & Hb & Hl & He);
    [by apply wf_empty_table|done|done|
     by apply load_factor_le_max_no_entry|
     by apply Forall_take|by apply Forall_take|].
  exists t. split_and!; [done..| |done].
  apply load_factor_le_max_near; [done|exact (wf_mlf t Hwf)|done].
Qed.


(** C3. [erase(k)] of a key the table does not have returns 0 and leaves
    the table as it is.  For the entry [e] of a key the table has, it
    returns 1, the entries that remain are the former ones without [e],
    the entry count is one less, and [contains(k)] is false afterwards. *)
Theorem erase_key k t :
  wf t → 0 < bucket_count t →
  ((∀ e, e ∈ entries t → key e ≠ k) → erase k t = Ok (0, t))
  ∧ (∀ e, e ∈ entries t → key e = k →
       ∃ t', erase k t = Ok (1, t')
             ∧ e :: entries t' ≡ₚ entries t
             ∧ entry_count t' + 1 = entry_count t
             ∧ bucket_count t' = bucket_count t
             ∧ wf t'
             ∧ contains k t' = Ok false).
Proof.
  intros Hwf Hb. pose proof (wf_length t Hwf) as Hl.
  pose proof (home_lookup k t Hl Hb) as Hh. split.
  - intros Hno. rewrite erase_ok by done.
    by rewrite (proj2 (find_home_None k t Hwf Hb) Hno).
  - intros e He Hk.
    destruct (proj2 (find_home_Some k e t Hwf Hb)) as [i Hf]; [done|].
    pose proof Hf as (Hi & _ & _)%list_find_Some.
    exists (erased (hash k mod bucket_count t) i t).
    assert (wf (erased (hash k mod bucket_count t) i t)) as Hwf'
      by by eapply wf_erased.
    split_and!; [by rewrite erase_ok, Hf|by eapply entries_erased|
      by eapply entry_count_erased|done|done|].
    apply contains_absent; [done..|]. intros x Hx. rewrite <-Hk.
    exact (erased_key_gone _ i _ e t Hwf Hh Hi x Hx).
Qed.


Lemma insert_fresh_step k v t es :
  wf t → 0 < bucket_count t → entries t ≡ₚ es → k ∉ key <$> es →
  ∃ t', insert k v t = Ok (tt, t') ∧ wf t'
        ∧ entries t' ≡ₚ mkEntry k v :: es
        ∧ entry_count t' = entry_count t + 1
        ∧ max_load_factor t' = max_load_factor t
        ∧ bucket_count t' = grown_bucket_count t.
Proof.
  intros Hwf Hb Hes Hk.
  destruct (insert_fresh k v t Hwf Hb) as (? & ? & Hp & ? & ? & ?).
  { intros e He <-. apply Hk, list_elem_of_fmap. exists e.
    by rewrite <-Hes. }
  exists (inserted k v t). split_and!; [done..| |done|done|done].
  by rewrite Hp, Hes.
Qed.


(** C6, as the code has it.  For a bucket index [n < bucket_count]:
    [end(n)] is the cursor [(n, size of bucket n)]; [begin(n)] is the
    cursor [(n, 0)] when the bucket has an entry and the [end()] of the
    whole table when it has none, so [begin(n)] is never [end(n)]; and
    [i] increments from [begin(n)] reach the cursor [(n, i)], which
    designates the entry at position [i] of the bucket, for every
    position [i] of the bucket. *)
Theorem bucket_cursors this t n b :
  buckets t !! n = Some b → n < bucket_count t →
  end_bucket this n t = Ok (mkIterator (Some this) n (length b), t)
  ∧ begin_bucket this n t
    = Ok (if b is [] then end_ this t else mkIterator (Some this) n 0, t)
  ∧ (∀ first last,
       begin_bucket this n t = Ok (first, t) →
       end_bucket this n t = Ok (last, t) →
       Iterator_eqb first last = false)
  ∧ (∀ i e, b !! i = Some e →
       begin_bucket this n t = Ok (mkIterator (Some this) n 0, t)
       ∧ advance t i (mkIterator (Some this) n 0)
         = Ok (mkIterator (Some this) n i)
       ∧ Iterator_deref t (mkIterator (Some this) n i) = Ok e).
Proof.
  intros Hb Hn.
  pose proof (begin_bucket_ok this t n b Hb Hn) as Hbegin.
  pose proof (end_bucket_ok this t n b Hb Hn) as Hend.
  split_and!; [done..| |].
  - intros first last. rewrite Hbegin, Hend.
    intros [= <-] [= <-]. apply Iterator_eqb_ne.
    destruct b; unfold end_; intros [=]; lia.
  - intros i e Hi. pose proof (lookup_lt_Some _ _ _ Hi).
    split_and!.
    + rewrite Hbegin. destruct b; [|done]. simpl in *. lia.
    + by rewrite (advance_in_bucket this t n b 0 i).
    + by apply (Iterator_deref_ok this t n b).
Qed.

(** [erase(pos)] for the cursor of an entry. *)
Lemma erase_pos_spec this t bi b i e :
  wf t → buckets t !! bi = Some b → b !! i = Some e →
  ∃ t',
    erase_pos this (mkIterator (Some this) bi i) t
    = Ok (default (end_ this t') (cursors this t' !! rank t bi i), t')
    ∧ cursors this t !! rank t bi i = Some (mkIterator (Some this) bi i)
    ∧ Iterator_deref t (mkIterator (Some this) bi i) = Ok e
    ∧ e :: entries t' ≡ₚ entries t
    ∧ entry_count t' + 1 = entry_count t
    ∧ bucket_count t' = bucket_count t
    ∧ wf t'
    ∧ contains (key e) t' = Ok false.
Proof.
  intros Hwf Hb Hi. pose proof (wf_length t Hwf) as Hl.
  pose proof (lookup_lt_Some _ _ _ Hb) as Hbi.
  pose proof (lookup_lt_Some _ _ _ Hi) as Hlt.
  pose proof (wf_erased bi i b e t Hwf Hb Hi) as Hwf'.
  exists (erased bi i t).
  split_and!; [by apply (erase_pos_ok this t bi b)|
    by apply (cursors_rank this t bi b)|
    apply (Iterator_deref_ok this t bi b); [lia|done..]|
    by eapply entries_erased|by eapply entry_count_erased|done|done|].
  apply contains_absent; [done|simpl; lia|].
  exact (erased_key_gone bi i b e t Hwf Hb Hi).
Qed.

(** [at] reads the table. *)
Lemma at_spec k t :
  wf t → 0 < bucket_count t →
  (at_ k t = Throw (key_not_found, t) ∧ ∀ e, e ∈ entries t → key e ≠ k)
  ∨ (∃ v, at_ k t = Ok (v, t) ∧ mkEntry k v ∈ entries t).
Proof.
  intros Hwf Hb. rewrite at_ok by eauto using wf_length.
  destruct (list_find _ _) as [[i e]|] eqn:Hf.
  - right. exists (value e).
    destruct (proj1 (find_home_Some k e t Hwf Hb)) as [He <-]; [eauto|].
    split; [done|]. by destruct e.
  - left. split; [done|]. by apply find_home_None.
Qed.

(** C9. A copy-constructed table has the buckets, the entry count and
    the bucket count of its source and the default threshold 0.75,
    whatever the threshold of the source; a copy assignment gives the
    target the buckets, the entry count and the bucket count of the
    source and leaves the target its threshold. *)
Theorem copy_keeps_no_max_load_factor other :
  wf other →
  (∃ c, HashMap_copy other = Ok c
        ∧ max_load_factor c = (3 # 4)%Q
        ∧ buckets c = buckets other
        ∧ entry_count c = entry_count other
        ∧ bucket_count c = bucket_count other)
  ∧ (∀ this that t, (this = that → t = other) →
       ∃ t', copy_assign this that other t = Ok (tt, t')
             ∧ max_load_factor t' = max_load_factor t
             ∧ buckets t' = buckets other
             ∧ entry_count t' = entry_count other
             ∧ bucket_count t' = bucket_count other).
Proof.
  intros Hwf. pose proof (wf_length other Hwf) as Hl. split.
  - eexists. split; [by apply HashMap_copy_ok|done].
  - intros this that t Hsame. destruct (decide (this = that)) as [->|Hne].
    + exists t. rewrite copy_assign_self. by rewrite (Hsame eq_refl).
    + eexists. split; [by apply copy_assign_ok|done].
Qed.

(** C10. [rehash(0)] on a table without entries leaves it without
    buckets: the bucket count is 0 and the bucket array is empty.  On
    that table [insert], [find], [at], [erase] and [contains] all reach
    the remainder by zero of [hash_func]. *)
Theorem rehash_zero t :
  wf t → entry_count t = 0 → 0 < bucket_count t →
  ∃ t', rehash 0 t = Ok (tt, t')
        ∧ bucket_count t' = 0 ∧ buckets t' = []
        ∧ ∀ this k v,
            hash_func k t' = Undefined division_by_zero
            ∧ insert k v t' = Undefined division_by_zero
            ∧ find this k t' = Undefined division_by_zero
            ∧ at_ k t' = Undefined division_by_zero
            ∧ erase k t' = Undefined division_by_zero
            ∧ contains k t' = Undefined division_by_zero.
Proof.
  intros Hwf Hc Hb.
  assert (min_required t = 0) as Hmin.
  { unfold min_required. rewrite Hc. unfold Qdiv.
    by rewrite Qmult_0_l. }
  assert (rehashed 0 t = mkHashMap [] 0 0 (max_load_factor t)) as Heq.
  { unfold rehashed. rewrite Hmin. change (0 `max` 0) with 0.
    destruct (Nat.eqb_spec 0 (bucket_count t)); [lia|].
    by rewrite Hc. }
  exists (mkHashMap [] 0 0 (max_load_factor t)). split_and!.
  - rewrite <-Heq.
    apply rehash_ok; [apply (wf_mlf t Hwf)|apply (wf_count t Hwf)].
  - done.
  - done.
  - intros this k v. by split_and!.
Qed.

Lemma advance_end this t j : advance t j (end_ this t) = Ok (end_ this t).
Proof.
  induction j as [|j IH]; [done|]. simpl. unfold Iterator_incr. simpl.
  rewrite Nat.leb_refl. simpl. exact IH.
Qed.

End Properties.

(** ** The operations on concrete tables *)

Example four_keys_run :
  @HashMap_cap_mlf nat nat 4 (3 # 4) = Ok (empty_table 4 (3 # 4))
  ∧ four_keys (empty_table 4 (3 # 4))
    = Ok (tt, mkHashMap
              [[]; [mkEntry 1 10]; [mkEntry 2 20]; [mkEntry 3 30];
               [mkEntry 4 40]; []; []; []]
              8 4 (3 # 4)).
Proof. split; reflexivity. Qed.

Example crowded_run :
  @HashMap_cap_mlf nat nat 2 (10 # 1) = Ok (empty_table 2 (10 # 1))
  ∧ for_each [(0, 1); (2, 3); (4, 5); (1, 7)] (λ kv, insert kv.1 kv.2)
      (empty_table 2 (10 # 1))
    = Ok (tt, crowded).
Proof. split; reflexivity. Qed.

Example erase_swaps_last :
  erase 0 crowded
  = Ok (1, mkHashMap [[mkEntry 4 5; mkEntry 2 3]; [mkEntry 1 7]] 2 3
             (10 # 1)).
Proof. reflexivity. Qed.

Example erase_pos_moves_last_in :
  erase_pos 7 (mkIterator (Some 7) 0 0) crowded
  = Ok (mkIterator (Some 7) 0 0,
        mkHashMap [[mkEntry 4 5; mkEntry 2 3]; [mkEntry 1 7]] 2 3 (10 # 1)).
Proof. reflexivity. Qed.

Example erase_pos_next_bucket :
  erase_pos 7 (mkIterator (Some 7) 0 2) crowded
  = Ok (mkIterator (Some 7) 1 0,
        mkHashMap [[mkEntry 0 1; mkEntry 2 3]; [mkEntry 1 7]] 2 3 (10 # 1)).
Proof. reflexivity. Qed.

Example traversal_of_crowded :
  cursors 7 crowded
  = [mkIterator (Some 7) 0 0; mkIterator (Some 7) 0 1;
     mkIterator (Some 7) 0 2; mkIterator (Some 7) 1 0]
  ∧ begin 7 crowded = Ok (mkIterator (Some 7) 0 0)
  ∧ advance crowded 3 (mkIterator (Some 7) 0 0)
    = Ok (mkIterator (Some 7) 1 0)
  ∧ advance crowded 4 (mkIterator (Some 7) 0 0) = Ok (end_ 7 crowded).
Proof. repeat split; reflexivity. Qed.

Example lonely_run :
  @HashMap_cap nat nat 2 = Ok (empty_table 2 (3 # 4))
  ∧ insert 0 10 (empty_table 2 (3 # 4)) = Ok (tt, lonely).
Proof. split; reflexivity. Qed.

Lemma wf_lonely : wf lonely.
Proof. apply wf_check_correct. reflexivity. Qed.

Lemma wf_crowded : wf crowded.
Proof. apply wf_check_correct. reflexivity. Qed.

Lemma wf_default : wf (@HashMap_default nat nat).
Proof. apply wf_check_correct. reflexivity. Qed.

(** ** The load factor, as claimed and as it is *)

(** C1 fails on [HashMap(10, 0.7f)] after the keys 0 to 6: the seventh
    insertion computes the load factor [7.0 / 10], which as a float is
    [0.7f], the threshold; the comparison [>] fails, the table keeps its
    10 buckets, and [7 / 10] is above [0.7f]. *)
Lemma load_factor_counterexample :
  HashMap_cap_mlf 10 float_0_7 = Ok (@empty_table nat nat 10 float_0_7)
  ∧ constructed (@empty_table nat nat 10 float_0_7)
  ∧ is_float float_0_7
  ∧ Forall positive_op seven_inserts
  ∧ (∃ t, for_each seven_inserts apply_op (empty_table 10 float_0_7)
          = Ok (tt, t)
          ∧ bucket_count t = 10 ∧ entry_count t = 7
          ∧ load_factor t = Finite float_0_7
          ∧ load_factor_le_max t
          ∧ ¬ load_le_max t)
  ∧ ¬ load_invariant_as_claimed (empty_table 10 float_0_7) seven_inserts.
Proof.
  split_and!.
  - by vm_compute.
  - right. right. by exists 10, float_0_7.
  - by vm_compute.
  - by repeat constructor.
  - eexists. split; [vm_compute; reflexivity|].
    split_and!; [done|done|by vm_compute|by vm_compute|].
    intros Hle. vm_compute in Hle. by apply Hle.
  - intros Hclaim. destruct (Hclaim 7) as (t & Hrun & Hle).
    vm_compute in Hrun. injection Hrun as <-.
    vm_compute in Hle. by apply Hle.
Qed.

(** ** Bucket cursors, as claimed and as they are *)

(** C6 fails on [lonely], whose bucket 0 holds one entry and whose bucket
    1 holds none: from [begin(0)] the first increment leaves bucket 0 for the
    [end()] of the table, so no number of increments reaches [end(0)]; and
    [begin(1)] is that [end()], the cursor [(2, 0)], while [end(1)] is
    [(1, 0)]. *)
Lemma bucket_iteration_counterexample :
  begin_bucket 7 0 lonely = Ok (mkIterator (Some 7) 0 0, lonely)
  ∧ end_bucket 7 0 lonely = Ok (mkIterator (Some 7) 0 1, lonely)
  ∧ (∀ j, advance lonely j (mkIterator (Some 7) 0 0)
          ≠ Ok (mkIterator (Some 7) 0 1))
  ∧ buckets lonely !! 1 = Some []
  ∧ begin_bucket 7 1 lonely = Ok (mkIterator (Some 7) 2 0, lonely)
  ∧ end_bucket 7 1 lonely = Ok (mkIterator (Some 7) 1 0, lonely)
  ∧ ¬ bucket_iteration_as_claimed 7 lonely 0
  ∧ ¬ bucket_iteration_as_claimed 7 lonely 1.
Proof.
  assert (∀ j, advance lonely j (mkIterator (Some 7) 0 0)
               ≠ Ok (mkIterator (Some 7) 0 1)) as Hnever.
  { intros [|j]; [done|]. simpl.
    change (advance lonely j (end_ 7 lonely) ≠ Ok (mkIterator (Some 7) 0 1)).
    by rewrite advance_end. }
  split_and!; [done..| |].
  - intros (b & first & last & Hb & Hfirst & Hlast & _ & Hreach & _).
    injection Hb as <-. injection Hfirst as <-. injection Hlast as <-.
    by apply (Hnever 1).
  - intros (b & first & last & Hb & Hfirst & Hlast & _ & _ & Hiff).
    injection Hb as <-. injection Hfirst as <-. injection Hlast as <-.
    pose proof (proj2 Hiff eq_refl) as Heq. discriminate Heq.
Qed.

(** ** Cursors and lookups on tables of strings *)

(** C7. [erase(pos)], for the cursor [pos] of the entry [e] at position
    [i] of bucket [bi]: the entries that remain are the former ones without
    [e], the entry count is one less, the key of [e] is not contained any
    more, and the cursor returned is the one at the rank of [pos] in the
    traversal of the table that remains (the entry moved into the slot, or
    the first entry of a later bucket), [end()] when no entry is left at
    that rank.  The traversal is the one of [begin()] and [operator++]:
    bucket by bucket, entry by entry.  From a default table with "a"->1 and "b"->2, for any hash
    function: erasing the cursor [find] gives for "a" returns the cursor
    [find] gives for "b" or [end()]; then "a" is not contained and "b"
    is. *)
Theorem erase_cursor {K V : Type} `{EqDecision K} {hash_K : Hash K}
    (this : ptr) (t : @HashMap K V) (bi i : nat) (b : list Entry)
    (e : Entry) :
  wf t → buckets t !! bi = Some b → b !! i = Some e →
  (∃ t',
     erase_pos this (mkIterator (Some this) bi i) t
     = Ok (default (end_ this t') (cursors this t' !! rank t bi i), t')
     ∧ cursors this t !! rank t bi i = Some (mkIterator (Some this) bi i)
     ∧ Iterator_deref t (mkIterator (Some this) bi i) = Ok e
     ∧ e :: entries t' ≡ₚ entries t
     ∧ entry_count t' + 1 = entry_count t
     ∧ contains (key e) t' = Ok false
     ∧ begin this t' = Ok (default (end_ this t') (head (cursors this t')))
     ∧ ∀ n it, cursors this t' !! n = Some it →
         Iterator_incr t' it
         = Ok (default (end_ this t') (cursors this t' !! S n)))
  ∧ (∀ (string_hash : Hash string) (self : ptr),
     ∃ (t1 t2 t3 : @HashMap string nat) (pos next : Iterator),
       insert "a" 1 HashMap_default = Ok (tt, t1)
       ∧ insert "b" 2 t1 = Ok (tt, t2)
       ∧ find self "a" t2 = Ok (pos, t2)
       ∧ erase_pos self pos t2 = Ok (next, t3)
       ∧ (find self "b" t3 = Ok (next, t3) ∨ next = end_ self t3)
       ∧ find self "b" t3 ≠ Ok (end_ self t3, t3)
       ∧ contains "a" t3 = Ok false
       ∧ contains "b" t3 = Ok true).
Proof.
  intros Hwf Hb Hi. split.
  { destruct (erase_pos_spec this t bi b i e Hwf Hb Hi)
      as (t' & ? & ? & ? & ? & ? & _ & Hwf' & ?).
    pose proof (wf_length t' Hwf') as Hl'.
    exists t'. split_and!; [done..|by apply begin_ok|].
    intros n it Hn. by apply Iterator_incr_ok. }
  intros h self.
  set (t0 := empty_table (K:=string) (V:=nat) 32 (3 # 4)).
  assert (wf t0) as Hwf0 by by apply wf_empty_table.
  destruct (insert_fresh_step "a" 1 t0 [] Hwf0)
    as (t1 & Hi1 & Hwf1 & Hp1 & Hc1 & Hm1 & Hb1);
    [simpl; lia|by unfold t0; rewrite entries_empty_table|
     by intros ?%elem_of_nil|].
  assert (bucket_count t1 = 32) as Hb1' by by rewrite Hb1.
  destruct (insert_fresh_step "b" 2 t1 _ Hwf1 ltac:(lia) Hp1)
    as (t2 & Hi2 & Hwf2 & Hp2 & Hc2 & Hm2 & Hb2).
  { simpl. by intros [=]%list_elem_of_singleton. }
  assert (bucket_count t2 = 32) as Hb2'.
  { rewrite Hb2. unfold grown_bucket_count. by rewrite Hc1, Hm1, Hb1'. }
  pose proof (wf_length t2 Hwf2) as Hl2.
  destruct (proj2 (find_home_Some "a" (mkEntry "a" 1) t2 Hwf2
                     ltac:(lia))) as [ia Hfa].
  { split; [|done]. rewrite Hp2. right. by left. }
  pose proof Hfa as (Hia & _ & _)%list_find_Some.
  pose proof (home_lookup "a" t2 Hl2 ltac:(lia)) as Hha.
  destruct (erase_pos_spec self t2 _ _ ia _ Hwf2 Hha Hia)
    as (t3 & Herase & _ & _ & Hp3 & _ & Hb3 & Hwf3 & Hca).
  rewrite Hp2 in Hp3.
  assert (entries t3 ≡ₚ [mkEntry "b" 2]) as Hp3'.
  { apply (inj (mkEntry "a" 1 ::.)). rewrite Hp3. apply Permutation_swap. }
  apply Permutation_singleton_r in Hp3'.
  pose proof (wf_length t3 Hwf3) as Hl3.
  destruct (proj2 (find_home_Some "b" (mkEntry "b" 2) t3 Hwf3
                     ltac:(lia))) as [ib Hfb].
  { split; [|done]. rewrite Hp3'. by left. }
  pose proof Hfb as (Hib & _ & _)%list_find_Some.
  pose proof (home_lookup "b" t3 Hl3 ltac:(lia)) as Hhb.
  pose proof (cursors_rank self t3 _ _ ib Hhb
                (lookup_lt_Some _ _ _ Hib)) as Hrank.
  assert (length (cursors self t3) = 1) as Hone.
  { unfold cursors. rewrite length_cursors_from.
    fold (entries t3). by rewrite Hp3'. }
  destruct (cursors self t3) as [|c [|??]] eqn:Hcs;
    [discriminate Hone| |discriminate Hone].
  assert (c = mkIterator (Some self) (hash "b" mod bucket_count t3) ib) as ->.
  { apply list_elem_of_lookup_2, list_elem_of_singleton in Hrank. done. }
  exists t1, t2, t3,
    (mkIterator (Some self) (hash "a" mod bucket_count t2) ia),
    (default (end_ self t3)
       ([mkIterator (Some self) (hash "b" mod bucket_count t3) ib]
          !! rank t2 (hash "a" mod bucket_count t2) ia)).
  split_and!; [done|done|by rewrite find_ok, Hfa by lia|done| | |done|].
  - rewrite find_ok, Hfb by lia.
    destruct (rank t2 _ ia) as [|n]; [by left|by right].
  - rewrite find_ok, Hfb by lia. intros [= Heq _].
    pose proof (Nat.mod_upper_bound (hash "b") (bucket_count t3)). lia.
  - apply (contains_present "b" (mkEntry "b" 2)); [done|lia| |done].
    rewrite Hp3'. by left.
Qed.

(** C8. [at(k)] changes nothing: it ends with the value the table holds
    for [k], or with the exception [std::out_of_range] of a key not found,
    and with the table as it was either way; it fails exactly when no entry
    has the key.  On a table that was just constructed, [at("missing")]
    fails, for any hash function. *)
Theorem at_only_looks_up {K V : Type} `{EqDecision K} {hash_K : Hash K}
    (k : K) (t : @HashMap K V) :
  wf t → 0 < bucket_count t →
  ((at_ k t = Throw (key_not_found, t) ∧ ∀ e, e ∈ entries t → key e ≠ k)
   ∨ (∃ v, at_ k t = Ok (v, t) ∧ mkEntry k v ∈ entries t))
  ∧ (at_ k t = Throw (key_not_found, t)
     ↔ ∀ e, e ∈ entries t → key e ≠ k)
  ∧ (∀ (string_hash : Hash string) (t0 : @HashMap string V),
       constructed t0 →
       at_ "missing" t0
       = Throw (out_of_range "HashMap::at: key not found", t0)).
Proof.
  intros Hwf Hb. split_and!.
  - by apply at_spec.
  - destruct (at_spec k t Hwf Hb) as [[Hat Hno]|(v & Hat & He)];
      rewrite Hat; split; try done.
    intros Hno. by destruct (Hno _ He).
  - intros h t0 (cap & mlf & Hc & Hm & ->)%constructed_empty_table.
    apply at_absent; [by apply wf_empty_table|done|].
    intros e He. rewrite entries_empty_table in He.
    by apply elem_of_nil in He.
Qed.

(** ** The theorems at concrete tables *)

(** Each theorem above that has a premise is applied to one of the
    concrete tables, where its premises are checked by computation. *)

Lemma load_factor_invariant_witness :
  constructed (@HashMap_default nat nat)
  ∧ is_float (max_load_factor (@HashMap_default nat nat))
  ∧ Forall positive_op three_ops
  ∧ Forall float_op three_ops
  ∧ within_size_t apply_op three_ops HashMap_default
  ∧ ∃ t, for_each (take 3 three_ops) apply_op HashMap_default = Ok (tt, t)
         ∧ load_factor_le_max t
         ∧ load_below_floats_above_max t
         ∧ ∀ ops' o, take 3 three_ops = ops' ++ [o] → took_effect o t.
Proof.
  assert (constructed (@HashMap_default nat nat)) as H1 by (by left).
  assert (is_float (max_load_factor (@HashMap_default nat nat))) as H2
    by (by vm_compute).
  assert (Forall positive_op three_ops) as H3 by (by repeat constructor).
  assert (Forall float_op three_ops) as H4
    by (repeat constructor; by vm_compute).
  assert (within_size_t apply_op three_ops HashMap_default) as H5
    by (vm_compute; repeat split; intros H; discriminate H).
  exact (conj H1 (conj H2 (conj H3 (conj H4 (conj H5
           (load_factor_invariant _ _ H1 H2 H3 H4 H5 3)))))).
Defined.


Lemma erase_key_witness :
  wf crowded ∧ 0 < bucket_count crowded
  ∧ erase 6 crowded = Ok (0, crowded)
  ∧ ∃ t', erase 0 crowded = Ok (1, t')
          ∧ entry_count t' + 1 = entry_count crowded
          ∧ contains 0 t' = Ok false.
Proof.
  assert (0 < bucket_count crowded) as H2 by (simpl; lia).
  split; [exact wf_crowded|split; [exact H2|]].
  destruct (erase_key 0 crowded wf_crowded H2) as [_ Hpresent].
  destruct (Hpresent (mkEntry 0 1)) as (t' & ? & _ & ? & _ & _ & ?);
    [by left|done|].
  split; [reflexivity|]. by exists t'.
Defined.



Lemma bucket_cursors_witness :
  buckets crowded !! 0 = Some [mkEntry 0 1; mkEntry 2 3; mkEntry 4 5]
  ∧ 0 < bucket_count crowded
  ∧ end_bucket 7 0 crowded = Ok (mkIterator (Some 7) 0 3, crowded)
  ∧ advance crowded 2 (mkIterator (Some 7) 0 0)
    = Ok (mkIterator (Some 7) 0 2)
  ∧ Iterator_deref crowded (mkIterator (Some 7) 0 2) = Ok (mkEntry 4 5).
Proof.
  assert (0 < bucket_count crowded) as H2 by (simpl; lia).
  split; [reflexivity|split; [exact H2|]].
  destruct (bucket_cursors 7 crowded 0 _ eq_refl H2) as (? & _ & _ & Hvisit).
  destruct (Hvisit 2 (mkEntry 4 5) eq_refl) as (_ & ? & ?).
  done.
Defined.

Lemma erase_cursor_witness :
  wf crowded
  ∧ buckets crowded !! 0 = Some [mkEntry 0 1; mkEntry 2 3; mkEntry 4 5]
  ∧ [mkEntry 0 1; mkEntry 2 3; mkEntry 4 5] !! 2 = Some (mkEntry 4 5)
  ∧ ∃ t', erase_pos 7 (mkIterator (Some 7) 0 2) crowded
          = Ok (default (end_ 7 t') (cursors 7 t' !! rank crowded 0 2), t')
          ∧ contains 4 t' = Ok false.
Proof.
  split; [exact wf_crowded|split; [reflexivity|split; [reflexivity|]]].
  destruct (erase_cursor 7 crowded 0 2 _ (mkEntry 4 5)
              wf_crowded eq_refl eq_refl)
    as [(t' & ? & _ & _ & _ & _ & ? & _) _].
  by exists t'.
Defined.

Lemma at_only_looks_up_witness :
  wf crowded ∧ 0 < bucket_count crowded
  ∧ (at_ 5 crowded = Throw (key_not_found, crowded)
     ↔ ∀ e, e ∈ entries crowded → key e ≠ 5).
Proof.
  assert (0 < bucket_count crowded) as H2 by (simpl; lia).
  split; [exact wf_crowded|split; [exact H2|]].
  exact (proj1 (proj2 (at_only_looks_up 5 crowded wf_crowded H2))).
Defined.

Lemma copy_keeps_no_max_load_factor_witness :
  wf crowded
  ∧ max_load_factor crowded = (10 # 1)%Q
  ∧ ∃ c, HashMap_copy crowded = Ok c
         ∧ max_load_factor c = (3 # 4)%Q
         ∧ buckets c = buckets crowded.
Proof.
  split; [exact wf_crowded|split; [reflexivity|]].
  destruct (copy_keeps_no_max_load_factor crowded wf_crowded)
    as [(c & ? & ? & ? & _) _].
  by exists c.
Defined.

Lemma rehash_zero_witness :
  wf (@HashMap_default nat nat)
  ∧ entry_count (@HashMap_default nat nat) = 0
  ∧ 0 < bucket_count (@HashMap_default nat nat)
  ∧ ∃ t', rehash 0 HashMap_default = Ok (tt, t')
          ∧ bucket_count t' = 0
          ∧ insert 1 10 t' = Undefined division_by_zero.
Proof.
  pose proof wf_default as H1.
  assert (0 < bucket_count (@HashMap_default nat nat)) as H3
    by (simpl; lia).
  split; [exact H1|split; [reflexivity|split; [exact H3|]]].
  destruct (rehash_zero HashMap_default H1 eq_refl H3)
    as (t' & ? & ? & _ & Hops).
  exists t'. split_and!; [done..|]. apply (Hops 0 1 10).
Defined.

(** * Further properties *)

Section Further.
Context {K V : Type} `{EqDecision K} {hash_K : Hash K}.
Context {value_init_V : Value_init V}.
Implicit Types (t s m other : @HashMap K V) (k : K) (v : V) (e : @Entry K V).
Implicit Types (es : list (@Entry K V)) (bs : list (list (@Entry K V))).

Ltac run :=
  repeat (progress (unfold mbind, M_bind, completion_bind, mret, M_ret,
                      completion_ret, read, get, put, throw; simpl)).

(** *** Cursors and the entries they designate *)

Lemma cursors_from_lookup_inv this bs : ∀ bi0 n it,
  cursors_from this bi0 bs !! n = Some it →
  ∃ j b i, it = mkIterator (Some this) (bi0 + j) i ∧ bs !! j = Some b
           ∧ i < length b ∧ n = length (mjoin (take j bs)) + i.
Proof.
  induction bs as [|b bs IH]; intros bi0 n it Hn; [done|]. simpl in Hn.
  destruct (decide (n < length b)) as [Hlt|Hge].
  - rewrite lookup_app_l in Hn by by rewrite length_fmap, length_seq.
    rewrite list_lookup_fmap, lookup_seq_lt in Hn by done.
    injection Hn as <-. exists 0, b, n.
    rewrite Nat.add_0_r. by split_and!.
  - rewrite lookup_app_r in Hn by (rewrite length_fmap, length_seq; lia).
    rewrite length_fmap, length_seq in Hn.
    destruct (IH _ _ _ Hn) as (j & b' & i & -> & Hj & Hi & Hrank).
    exists (S j), b', i. split_and!; [f_equal; lia|done..|].
    simpl. rewrite length_app. lia.
Qed.

(** A cursor of the traversal is the slot of an entry, and its rank is the
    rank of the slot. *)
Lemma cursors_lookup_inv this t n it :
  cursors this t !! n = Some it →
  ∃ bi b i, it = mkIterator (Some this) bi i ∧ buckets t !! bi = Some b
            ∧ i < length b ∧ n = rank t bi i.
Proof. intros Hn. by apply cursors_from_lookup_inv in Hn. Qed.

Lemma entries_rank t bi b i :
  buckets t !! bi = Some b → entries t !! rank t bi i = b !! i
  ∨ length b ≤ i.
Proof.
  intros Hb. destruct (decide (i < length b)) as [Hi|]; [left|right; lia].
  rewrite (entries_split t bi b Hb). unfold rank.
  rewrite lookup_app_r by lia.
  replace (_ + i - _) with i by lia. by rewrite lookup_app_l.
Qed.

(** The cursor of rank [n] designates the entry of rank [n]. *)
Lemma cursors_deref this t n it :
  length (buckets t) = bucket_count t →
  cursors this t !! n = Some it →
  ∃ e, entries t !! n = Some e ∧ Iterator_deref t it = Ok e.
Proof.
  intros Hl (bi & b & i & -> & Hb & Hi & ->)%cursors_lookup_inv.
  destruct (lookup_lt_is_Some_2 b i Hi) as [e He]. exists e.
  destruct (entries_rank t bi b i Hb) as [->|]; [|lia].
  split; [done|]. apply (Iterator_deref_ok this t bi b); [|done..].
  rewrite <-Hl. eauto using lookup_lt_Some.
Qed.

Lemma length_cursors this t : length (cursors this t) = length (entries t).
Proof. apply length_cursors_from. Qed.

(** A cursor of the traversal is not [end()]. *)
Lemma cursors_not_end this t n it :
  length (buckets t) = bucket_count t →
  cursors this t !! n = Some it → Iterator_eqb it (end_ this t) = false.
Proof.
  intros Hl (bi & b & i & -> & Hb & Hi & ->)%cursors_lookup_inv.
  apply Iterator_eqb_ne. unfold end_. intros [= Hbi _].
  apply lookup_lt_Some in Hb. lia.
Qed.

(** [j] increments from the cursor of rank [n] lead to the cursor of rank
    [n + j], and to [end()] when the traversal is over. *)
Lemma advance_cursors this t j : ∀ n it,
  length (buckets t) = bucket_count t →
  cursors this t !! n = Some it →
  advance t j it = Ok (default (end_ this t) (cursors this t !! (n + j))).
Proof.
  induction j as [|j IH]; intros n it Hl Hn; simpl.
  { by rewrite Nat.add_0_r, Hn. }
  rewrite (Iterator_incr_ok this t n it Hl Hn). simpl.
  replace (n + S j) with (S n + j) by lia.
  destruct (cursors this t !! S n) as [it'|] eqn:Hn'; simpl.
  - by apply (IH (S n)).
  - rewrite advance_end.
    rewrite (proj2 (lookup_ge_None _ _)); [done|].
    apply lookup_ge_None in Hn'. lia.
Qed.

(** *** Tables with the same entries answer alike *)

Lemma count_ok k t :
  length (buckets t) = bucket_count t → 0 < bucket_count t →
  count k t
  = Ok (if list_find (λ e, key e = k) (home k t) is Some _ then 1 else 0).
Proof.
  intros Hl Hb. unfold count. rewrite hash_func_ok by done. simpl.
  rewrite find_entry_ok by done. simpl.
  by destruct (list_find _ _) as [[??]|].
Qed.

Lemma find_home_ext k t t' :
  wf t → wf t' → 0 < bucket_count t → 0 < bucket_count t' →
  (∀ e, key e = k → e ∈ entries t' ↔ e ∈ entries t) →
  snd <$> list_find (λ e, key e = k) (home k t')
  = snd <$> list_find (λ e, key e = k) (home k t).
Proof.
  intros Hwf Hwf' Hb Hb' Hiff.
  destruct (list_find _ (home k t)) as [[i e]|] eqn:Hf.
  - assert (e ∈ entries t ∧ key e = k) as [He Hk]
      by (apply find_home_Some; eauto).
    assert (∃ i', list_find (λ e, key e = k) (home k t') = Some (i', e))
      as [i' ->]; [|done].
    apply find_home_Some; [done..|]. split; [by apply Hiff|done].
  - assert (list_find (λ e, key e = k) (home k t') = None) as ->; [|done].
    apply find_home_None; [done..|]. intros e He Hk.
    apply (proj1 (find_home_None k t Hwf Hb) Hf e); [by apply Hiff|done].
Qed.

(** Two tables that hold the same entries of key [k] answer alike to
    every lookup of [k], whatever their bucket counts. *)
Lemma lookup_ext k t t' :
  wf t → wf t' → 0 < bucket_count t → 0 < bucket_count t' →
  (∀ e, key e = k → e ∈ entries t' ↔ e ∈ entries t) →
  at_const k t' = at_const k t ∧ contains k t' = contains k t
  ∧ count k t' = count k t.
Proof.
  intros Hwf Hwf' Hb Hb' Hiff.
  pose proof (find_home_ext k t t' Hwf Hwf' Hb Hb' Hiff) as Hf.
  rewrite !at_const_ok, !contains_ok, !count_ok
    by (done || by apply wf_length).
  destruct (list_find _ (home k t')) as [[??]|],
    (list_find _ (home k t)) as [[??]|]; simplify_eq/=; done.
Qed.

Lemma lookup_absent k t :
  wf t → 0 < bucket_count t → (∀ e, e ∈ entries t → key e ≠ k) →
  at_const k t = Throw key_not_found ∧ contains k t = Ok false
  ∧ count k t = Ok 0.
Proof.
  intros Hwf Hb Habs.
  rewrite at_const_ok, contains_ok, count_ok by (done || by apply wf_length).
  by rewrite (proj2 (find_home_None k t Hwf Hb) Habs).
Qed.

Lemma lookup_present k e t :
  wf t → 0 < bucket_count t → e ∈ entries t → key e = k →
  at_const k t = Ok (value e) ∧ contains k t = Ok true
  ∧ count k t = Ok 1.
Proof.
  intros Hwf Hb He Hk.
  rewrite at_const_ok, contains_ok, count_ok by (done || by apply wf_length).
  destruct (proj2 (find_home_Some k e t Hwf Hb) (conj He Hk)) as [i ->].
  done.
Qed.

(** *** Empty tables *)

Lemma begin_empty this t :
  length (buckets t) = bucket_count t → entries t = [] →
  begin this t = Ok (end_ this t).
Proof.
  intros Hl He. rewrite (begin_ok this) by done.
  assert (cursors this t = []) as ->; [|done].
  apply nil_length_inv. by rewrite length_cursors, He.
Qed.

Lemma load_le_max_no_entry t :
  0 < bucket_count t → (0 < max_load_factor t)%Q → entry_count t = 0 →
  load_le_max t.
Proof.
  intros Hb Hm He. unfold load_le_max. rewrite quotient_pos by done.
  rewrite He. unfold Qdiv. rewrite Qmult_0_l. by apply Qlt_le_weak.
Qed.

Lemma nothing_in_empty k t :
  wf t → 0 < bucket_count t → entries t = [] →
  at_const k t = Throw key_not_found ∧ contains k t = Ok false
  ∧ count k t = Ok 0.
Proof.
  intros Hwf Hb He. apply lookup_absent; [done..|].
  intros e Hin. rewrite He in Hin. by apply elem_of_nil in Hin.
Qed.

Lemma join_cleared bs : mjoin ((λ _ : list (@Entry K V), []) <$> bs)
                        = @nil (@Entry K V).
Proof. induction bs as [|b bs IH]; [done|]. exact IH. Qed.

(** *** Construction *)


(** *** [clear] *)

Lemma wf_cleared t :
  wf t →
  wf (mkHashMap ((λ _, @nil (@Entry K V)) <$> buckets t) (bucket_count t) 0
        (max_load_factor t)).
Proof.
  intros Hwf. split; unfold entries; simpl; rewrite ?join_cleared.
  - rewrite length_fmap. by apply wf_length.
  - done.
  - intros i b e Hb Hin. rewrite list_lookup_fmap in Hb.
    destruct (buckets t !! i); simplify_eq/=. by apply elem_of_nil in Hin.
  - constructor.
  - by apply wf_mlf.
Qed.

(** X3.  [clear] removes every entry and nothing else: the bucket count
    and the threshold stay, the table stays well formed, no key is found
    any more and [begin()] is [end()]. *)
Theorem clear_empties t :
  wf t →
  ∃ t', clear t = Ok (tt, t') ∧ wf t'
        ∧ entries t' = [] ∧ size t' = 0 ∧ empty t' = true
        ∧ get_bucket_count t' = get_bucket_count t
        ∧ get_max_load_factor t' = get_max_load_factor t
        ∧ (∀ this, begin this t' = Ok (end_ this t'))
        ∧ (0 < bucket_count t →
             load_le_max t'
             ∧ ∀ k, contains k t' = Ok false ∧ count k t' = Ok 0
                    ∧ at_const k t' = Throw key_not_found).
Proof.
  intros Hwf. eexists. split; [reflexivity|].
  set (t' := mkHashMap _ _ _ _).
  assert (entries t' = []) as He by apply join_cleared.
  pose proof (wf_cleared t Hwf) as Hwf'. fold t' in Hwf'.
  split_and!; try done.
  - intros this. apply begin_empty; [by apply wf_length|done].
  - intros Hb. split.
    + apply load_le_max_no_entry; [done| |done]. exact (wf_mlf t Hwf).
    + intros k.
      destruct (nothing_in_empty k t' Hwf' Hb He) as (-> & -> & ->). done.
Qed.

(** *** Traversal *)

(** X4.  A traversal from [begin()] visits every entry once, in the order
    of the buckets and, inside a bucket, of the positions: [n] increments
    lead to a cursor that is not [end()] and designates the entry of rank
    [n], [size()] increments lead to [end()], an increment of [end()]
    changes nothing, [end()] cannot be dereferenced, [begin()] is [end()]
    exactly when the table is empty, and different numbers of increments
    below [size()] lead to different cursors. *)
Theorem full_traversal this t :
  wf t →
  ∃ first,
    begin this t = Ok first
    ∧ (∀ n e, entries t !! n = Some e →
         ∃ it, advance t n first = Ok it ∧ Iterator_deref t it = Ok e
               ∧ Iterator_eqb it (end_ this t) = false)
    ∧ advance t (size t) first = Ok (end_ this t)
    ∧ (∀ j, advance t j (end_ this t) = Ok (end_ this t))
    ∧ Iterator_deref t (end_ this t)
      = Throw (out_of_range "Iterator::operator*: invalid iterator")
    ∧ Iterator_eqb first (end_ this t) = empty t
    ∧ (∀ n n' it, n < size t → n' < size t →
         advance t n first = Ok it → advance t n' first = Ok it → n = n').
Proof.
  intros Hwf. pose proof (wf_length t Hwf) as Hl.
  pose proof (wf_count t Hwf) as Hc.
  pose proof (length_cursors this t) as Hlen.
  eexists. split; [by apply begin_ok|].
  assert (Iterator_deref t (end_ this t)
          = Throw (out_of_range "Iterator::operator*: invalid iterator"))
    as Hend.
  { unfold Iterator_deref, end_. simpl.
    by rewrite (proj2 (Nat.leb_le _ _)) by done. }
  destruct (cursors this t) as [|c cs] eqn:Hcs; simpl in *.
  - split_and!;
      [|unfold size; by rewrite Hc, <-Hlen|by apply advance_end|done| |].
    + intros n e Hn%lookup_lt_Some. lia.
    + unfold empty. rewrite Hc, <-Hlen. simpl.
      by apply Iterator_eqb_eq.
    + unfold size. intros n n' it Hn. lia.
  - assert (cursors this t !! 0 = Some c) as H0 by by rewrite Hcs.
    split_and!; [| |by apply advance_end|done| |].
    + intros n e Hn. pose proof (lookup_lt_Some _ _ _ Hn) as Hlt.
      destruct (lookup_lt_is_Some_2 (cursors this t) n) as [it Hit];
        [rewrite Hcs; simpl; lia|].
      exists it. rewrite (advance_cursors this t n 0 c Hl H0). simpl.
      rewrite Hit. split; [done|].
      destruct (cursors_deref this t n it Hl Hit) as (e' & He' & Hd).
      split; [congruence|]. by apply (cursors_not_end this t n).
    + rewrite (advance_cursors this t _ 0 c Hl H0). simpl.
      rewrite (proj2 (lookup_ge_None _ _)); [done|].
      rewrite Hcs. unfold size. simpl. lia.
    + rewrite (cursors_not_end this t 0 c Hl H0). unfold empty.
      symmetry. apply Nat.eqb_neq. lia.
    + unfold size. intros n n' it Hn Hn'.
      rewrite !(advance_cursors this t _ 0 c Hl H0). simpl.
      destruct (lookup_lt_is_Some_2 (cursors this t) n) as [x Hx];
        [rewrite Hcs; simpl; lia|].
      destruct (lookup_lt_is_Some_2 (cursors this t) n') as [y Hy];
        [rewrite Hcs; simpl; lia|].
      rewrite Hx, Hy. simpl. intros [= ->] [= ->].
      apply cursors_lookup_inv in Hx as (bi & b & i & -> & Hb & _ & ->).
      apply cursors_lookup_inv in Hy as (? & ? & ? & [= <- <-] & _ & _ & ->).
      done.
Qed.

(** *** [find] and [count] *)

(** X5.  [find] leaves the table as it is and returns [end()] for a key
    the table does not have; for a key it has, the cursor it returns is one
    of the traversal, lies in the bucket [bucket] names, is not [end()]
    and designates the entry of that key. *)
Theorem find_cursor this k t :
  wf t → 0 < bucket_count t →
  ∃ it, find this k t = Ok (it, t)
    ∧ ((∀ e, e ∈ entries t → key e ≠ k) → it = end_ this t)
    ∧ (∀ e, e ∈ entries t → key e = k →
         Iterator_deref t it = Ok e ∧ it ∈ cursors this t
         ∧ bucket k t = Ok (bucket_idx it)
         ∧ Iterator_eqb it (end_ this t) = false).
Proof.
  intros Hwf Hb. pose proof (wf_length t Hwf) as Hl.
  rewrite (find_ok this) by done. eexists. split; [reflexivity|].
  pose proof (home_lookup k t Hl Hb) as Hhome.
  destruct (list_find _ (home k t)) as [[i e0]|] eqn:Hf.
  - assert (e0 ∈ entries t ∧ key e0 = k) as [He0 Hk0]
      by (apply find_home_Some; eauto).
    split; [intros Habs; by destruct (Habs e0)|].
    intros e He Hk.
    assert (e = e0) as ->
      by (apply (unique_key (entries t)); [apply wf_unique|..]; congruence).
    apply list_find_Some in Hf as (Hi & _ & _).
    pose proof (lookup_lt_Some _ _ _ Hi) as Hlt.
    pose proof (cursors_rank this t _ _ i Hhome Hlt) as Hcur.
    split_and!.
    + apply (Iterator_deref_ok this t _ (home k t)); [|done..].
      by apply Nat.mod_upper_bound, Nat.neq_0_lt_0.
    + by eapply list_elem_of_lookup_2.
    + unfold bucket. by rewrite hash_func_ok.
    + by eapply cursors_not_end.
  - split; [done|]. intros e He Hk.
    by destruct (proj1 (find_home_None k t Hwf Hb) Hf e).
Qed.

Lemma length_filter_key (l : list (@Entry K V)) k :
  NoDup (key <$> l) →
  length (filter (λ e, key e = k) l)
  = if decide (k ∈ key <$> l) then 1 else 0.
Proof.
  induction l as [|x l IH]; [done|]. rewrite fmap_cons, NoDup_cons.
  intros [Hx Hnd]. rewrite filter_cons. specialize (IH Hnd).
  destruct (decide (key x = k)) as [<-|Hne]; simpl.
  - rewrite IH, decide_False by done.
    rewrite decide_True by apply list_elem_of_here. done.
  - rewrite IH. destruct (decide (k ∈ key <$> l)).
    + by rewrite decide_True by by apply list_elem_of_further.
    + rewrite decide_False; [done|].
      rewrite elem_of_cons. intros [?|?]; congruence.
Qed.

(** X6.  [count] returns the number of entries of the table whose key is
    the given one, which is zero or one, and is one exactly when
    [contains] answers true. *)
Theorem count_counts k t :
  wf t → 0 < bucket_count t →
  count k t = Ok (length (filter (λ e, key e = k) (entries t)))
  ∧ (count k t = Ok 0 ∨ count k t = Ok 1)
  ∧ (count k t = Ok 1 ↔ contains k t = Ok true).
Proof.
  intros Hwf Hb.
  rewrite (length_filter_key _ k (wf_unique t Hwf)).
  destruct (decide (k ∈ key <$> entries t)) as [Hin|Hout].
  - apply list_elem_of_fmap in Hin as (e & Hk & He).
    destruct (lookup_present k e t Hwf Hb He (eq_sym Hk)) as (_ & -> & ->).
    split_and!; [done|by right|done].
  - assert (∀ e, e ∈ entries t → key e ≠ k) as Habs.
    { intros e He Hk. apply Hout. apply list_elem_of_fmap. by exists e. }
    destruct (lookup_absent k t Hwf Hb Habs) as (_ & -> & ->).
    split_and!; [done|by left|]. split; intros [=].
Qed.

(** *** [operator[]] *)

Lemma subscript_present k t i e :
  length (buckets t) = bucket_count t → 0 < bucket_count t →
  list_find (λ e, key e = k) (home k t) = Some (i, e) →
  subscript k t = Ok (value e, t).
Proof.
  intros Hl Hb Hf. unfold subscript. run.
  rewrite find_entry_ok, Hf by done. simpl.
  apply list_find_Some in Hf as (Hi & _ & _).
  unfold load. simpl.
  rewrite (index_Some _ _ _ (home_lookup k t Hl Hb)). run.
  by rewrite (index_Some _ _ _ Hi).
Qed.

(** For a key the table does not have, [operator[]] runs the statements
    of [insert(key, V{})] and returns the value it stored. *)
Lemma subscript_absent k t :
  length (buckets t) = bucket_count t → 0 < bucket_count t →
  list_find (λ e, key e = k) (home k t) = None →
  subscript k t
  = match insert k value_init t with
    | Ok (_, t') => Ok (value_init, t')
    | Throw x => Throw x
    | Undefined u => Undefined u
    end.
Proof.
  intros Hl Hb Hf. rewrite (insert_absent k value_init t Hl Hb Hf).
  unfold subscript, push_back. run.
  rewrite find_entry_ok, Hf by done. simpl.
  rewrite hash_func_ok by done. simpl.
  rewrite (index_Some _ _ _ (home_lookup k t Hl Hb)). simpl.
  fold (with_bucket t (hash k mod bucket_count t)
          (home k t ++ [mkEntry k value_init]) (entry_count t + 1)).
  fold (appended k value_init t).
  destruct (fgt _ _); [|done].
  by destruct (rehash _ _) as [[[] ?]| |].
Qed.


(** *** What a change of one key leaves of the others *)

Lemma erased_found k t i e :
  wf t → 0 < bucket_count t →
  list_find (λ e, key e = k) (home k t) = Some (i, e) →
  let t' := erased (hash k mod bucket_count t) i t in
  wf t' ∧ bucket_count t' = bucket_count t
  ∧ e :: entries t' ≡ₚ entries t
  ∧ entry_count t' + 1 = entry_count t ∧ key e = k.
Proof.
  intros Hwf Hb Hf t'. pose proof (wf_length t Hwf) as Hl.
  pose proof (home_lookup k t Hl Hb) as Hhome.
  apply list_find_Some in Hf as (Hi & Hk & _).
  split_and!; [|done| | |done].
  - by eapply wf_erased.
  - by eapply entries_erased.
  - by eapply entry_count_erased.
Qed.




(** *** [erase(Iterator)] *)

Lemma erase_pos_end this t : erase_pos this (end_ this t) t
                             = Ok (end_ this t, t).
Proof.
  unfold erase_pos. run. rewrite bool_decide_false by (by intros []).
  by rewrite (proj2 (Nat.leb_le _ _)).
Qed.

(** X10.  [erase(find(key))] leaves the table [erase(key)] leaves, whether
    the table has the key or not, and the cursor it returns is [end()] or
    a cursor of the traversal of that table. *)
Theorem erase_at_found_cursor this k t :
  wf t → 0 < bucket_count t →
  ∃ it next n t',
    find this k t = Ok (it, t)
    ∧ erase_pos this it t = Ok (next, t')
    ∧ erase k t = Ok (n, t')
    ∧ (next = end_ this t' ∨ next ∈ cursors this t').
Proof.
  intros Hwf Hb. pose proof (wf_length t Hwf) as Hl.
  rewrite (find_ok this), erase_ok by done.
  pose proof (home_lookup k t Hl Hb) as Hhome.
  destruct (list_find (λ e, key e = k) (home k t)) as [[i e0]|] eqn:Hf.
  - apply list_find_Some in Hf as (Hi & _ & _).
    pose proof (lookup_lt_Some _ _ _ Hi) as Hlt.
    do 4 eexists. split; [reflexivity|].
    rewrite (erase_pos_ok this t _ _ i Hl Hhome Hlt).
    split_and!; [reflexivity..|].
    destruct (cursors _ _ !! _) as [c|] eqn:Hc; simpl; [right|by left].
    by eapply list_elem_of_lookup_2.
  - do 4 eexists. split; [reflexivity|]. rewrite erase_pos_end.
    split_and!; [reflexivity..|by left].
Qed.

(** The guards of [erase(Iterator)] let the cursors of the traversal
    through and no other. *)
Lemma erase_pos_cases this pos t :
  wf t →
  (pos ∈ cursors this t
   ∧ (∃ next t', erase_pos this pos t = Ok (next, t')
                 ∧ entry_count t' + 1 = entry_count t ∧ wf t'
                 ∧ bucket_count t' = bucket_count t
                 ∧ max_load_factor t' = max_load_factor t))
  ∨ ((pos ∉ cursors this t)
     ∧ erase_pos this pos t = Ok (end_ this t, t)).
Proof.
  intros Hwf. pose proof (wf_length t Hwf) as Hl.
  destruct pos as [m bi i].
  destruct (decide (m = Some this)) as [->|Hm].
  2:{ right. split.
      - intros (n & Hn)%list_elem_of_lookup_1.
        apply cursors_lookup_inv in Hn as (? & ? & ? & [= ? _ _] & _).
        congruence.
      - unfold erase_pos. run. by rewrite bool_decide_true. }
  destruct (decide (bi < bucket_count t)) as [Hbi|Hbi].
  2:{ right. split.
      - intros (n & Hn)%list_elem_of_lookup_1.
        apply cursors_lookup_inv in Hn as (? & ? & ? & [= <- _] & Hb & _).
        apply lookup_lt_Some in Hb. lia.
      - unfold erase_pos. run. rewrite bool_decide_false by (by intros []).
        by rewrite (proj2 (Nat.leb_le _ _)) by lia. }
  destruct (lookup_lt_is_Some_2 (buckets t) bi) as [b Hb]; [lia|].
  destruct (decide (i < length b)) as [Hi|Hi].
  - left. split.
    + eapply list_elem_of_lookup_2. exact (cursors_rank this t bi b i Hb Hi).
    + destruct (lookup_lt_is_Some_2 b i Hi) as [e He].
      rewrite (erase_pos_ok this t bi b i Hl Hb Hi).
      do 2 eexists. split; [reflexivity|]. split_and!.
      * by eapply entry_count_erased.
      * by eapply wf_erased.
      * done.
      * done.
  - right. split.
    + intros (n & Hn)%list_elem_of_lookup_1.
      apply cursors_lookup_inv in Hn
        as (? & b' & ? & [= <- <-] & Hb' & ? & _).
      simplify_eq. lia.
    + unfold erase_pos. run. rewrite bool_decide_false by (by intros []).
      destruct (Nat.leb_spec (bucket_count t) bi); [lia|].
      rewrite (index_Some _ _ _ Hb). simpl.
      by rewrite (proj2 (Nat.leb_le _ _)) by lia.
Qed.

(** X11.  [erase(Iterator)] never fails.  Given a cursor of the
    traversal it removes one entry and keeps the table well formed; given
    anything else, such as [end()], a cursor past a bucket's end or the
    cursor of another table, it changes nothing and returns [end()]. *)
Theorem erase_pos_total this pos t :
  wf t →
  (pos ∈ cursors this t
   ∧ (∃ next t', erase_pos this pos t = Ok (next, t')
                 ∧ size t' + 1 = size t ∧ wf t'
                 ∧ get_bucket_count t' = get_bucket_count t))
  ∨ ((pos ∉ cursors this t)
     ∧ erase_pos this pos t = Ok (end_ this t, t)).
Proof.
  intros Hwf. unfold size, get_bucket_count.
  destruct (erase_pos_cases this pos t Hwf)
    as [[Hin (next & t' & He & Hc & Hwf' & Hb & _)]|[Hout He]].
  - left. split; [done|]. by exists next, t'.
  - by right.
Qed.

(** [erase(begin())] returns [begin()] of the table it leaves. *)
Lemma erase_begin this t it :
  wf t → 0 < entry_count t → begin this t = Ok it →
  ∃ it' t', erase_pos this it t = Ok (it', t') ∧ begin this t' = Ok it'
            ∧ wf t' ∧ entry_count t' + 1 = entry_count t
            ∧ bucket_count t' = bucket_count t.
Proof.
  intros Hwf Hpos Hbegin. pose proof (wf_length t Hwf) as Hl.
  rewrite (begin_ok this) in Hbegin by done.
  pose proof (length_cursors this t) as Hlen.
  rewrite <-(wf_count t Hwf) in Hlen.
  destruct (cursors this t) as [|c cs] eqn:Hcs; [simpl in Hlen; lia|].
  simpl in Hbegin. injection Hbegin as <-.
  assert (cursors this t !! 0 = Some c) as H0 by by rewrite Hcs.
  apply cursors_lookup_inv in H0 as (bi & b & i & -> & Hb & Hi & Hrank).
  destruct (lookup_lt_is_Some_2 b i Hi) as [e He].
  rewrite (erase_pos_ok this t bi b i Hl Hb Hi), <-Hrank.
  do 2 eexists. split; [reflexivity|].
  pose proof (wf_erased bi i b e t Hwf Hb He) as Hwf'.
  split_and!; [|done|by eapply entry_count_erased|done].
  rewrite (begin_ok this) by by apply wf_length.
  by rewrite head_lookup.
Qed.

(** X12.  The loop [it = begin(); while (...) it = erase(it);] run [n]
    times, for [n] up to the size: the cursor is [begin()] of the table at
    every step, each step removes one entry and keeps the buckets, and
    after [size()] steps the table is empty and the cursor is [end()]. *)
Theorem erase_front_empties this n t :
  wf t → n ≤ size t →
  ∃ it t',
    erase_front this n t = Ok (it, t') ∧ begin this t' = Ok it
    ∧ wf t' ∧ size t' + n = size t
    ∧ get_bucket_count t' = get_bucket_count t
    ∧ (n = size t → it = end_ this t' ∧ entries t' = [] ∧ empty t' = true).
Proof.
  unfold size, get_bucket_count, empty.
  assert (∀ t, wf t →  n ≤ entry_count t →
    ∃ it t', erase_front this n t = Ok (it, t') ∧ begin this t' = Ok it
             ∧ wf t' ∧ entry_count t' + n = entry_count t
             ∧ bucket_count t' = bucket_count t) as Hloop.
  { clear t. induction n as [|n IH]; intros t Hwf Hn; simpl.
    - exists (default (end_ this t) (head (cursors this t))), t. run.
      rewrite (begin_ok this) by by apply wf_length.
      split_and!; [done..|lia|done].
    - destruct (IH t Hwf) as (it & t' & Hrun & Hbegin & Hwf' & Hc & Hb);
        [lia|].
      destruct (erase_begin this t' it Hwf') as
        (it' & t'' & Herase & Hbegin' & Hwf'' & Hc' & Hb'); [lia|done|].
      exists it', t''. run. rewrite Hrun. simpl. rewrite Herase.
      split_and!; [done..|lia|congruence]. }
  intros Hwf Hn.
  destruct (Hloop t Hwf Hn) as (it & t' & Hrun & Hbegin & Hwf' & Hc & Hb).
  exists it, t'. split_and!; [done..|]. intros ->.
  assert (entries t' = []) as He.
  { apply nil_length_inv. rewrite <-(wf_count t' Hwf'). lia. }
  rewrite (begin_empty this t') in Hbegin by (done || by apply wf_length).
  injection Hbegin as <-. split_and!; [done..|].
  apply Nat.eqb_eq. lia.
Qed.

(** *** Buckets *)

(** X13.  Bucket [n] holds the entries whose key [bucket] maps to [n] and
    no other, [bucket_size(n)] is their number, the bucket sizes add up to
    [size()], [bucket] names a bucket of the table, and an index that is
    not below the bucket count makes [bucket_size], [begin(n)] and
    [end(n)] throw and leave the table as it is. *)
Theorem bucket_contents t :
  wf t →
  (∀ n, n < get_bucket_count t →
     ∃ b, buckets t !! n = Some b ∧ bucket_size n t = Ok (length b)
          ∧ ∀ e, e ∈ b ↔ e ∈ entries t ∧ bucket (key e) t = Ok n)
  ∧ sum_list (length <$> buckets t) = size t
  ∧ (∀ k, 0 < get_bucket_count t →
       ∃ n, bucket k t = Ok n ∧ n < get_bucket_count t)
  ∧ (∀ n this, get_bucket_count t ≤ n →
       bucket_size n t
       = Throw (out_of_range
                  "HashMap::bucket_size: bucket index out of range")
       ∧ begin_bucket this n t
         = Throw (out_of_range
                    "HashMap::begin(bucket): bucket index out of range", t)
       ∧ end_bucket this n t
         = Throw (out_of_range
                    "HashMap::end(bucket): bucket index out of range", t)).
Proof.
  intros Hwf. pose proof (wf_length t Hwf) as Hl.
  unfold get_bucket_count, size, bucket. split_and!.
  - intros n Hn. assert (0 < bucket_count t) as Hb by lia.
    destruct (lookup_lt_is_Some_2 (buckets t) n) as [b Hbn]; [lia|].
    exists b. split_and!; [done| |].
    + unfold bucket_size. destruct (Nat.leb_spec (bucket_count t) n); [lia|].
      by rewrite (index_Some _ _ _ Hbn).
    + intros e. rewrite hash_func_ok by done. split.
      * intros He. split; [apply elem_of_entries; eauto|].
        f_equal. by apply (wf_home t Hwf n b).
      * intros [He [= Hh]]. pose proof (entries_home e t Hwf He) as Hin.
        unfold home in Hin. by rewrite Hh, Hbn in Hin.
  - rewrite (wf_count t Hwf). symmetry. apply length_join.
  - intros k Hb. rewrite hash_func_ok by done. eexists. split; [done|].
    apply Nat.mod_upper_bound. lia.
  - intros n this Hn.
    unfold bucket_size, begin_bucket, end_bucket. run.
    by rewrite (proj2 (Nat.leb_le _ _)) by done.
Qed.

(** *** Load factor *)

Lemma load_le_max_rehashed count t :
  (0 < max_load_factor t)%Q → 0 < bucket_count (rehashed count t) →
  load_le_max (rehashed count t).
Proof.
  intros Hm Hb. unfold load_le_max. rewrite quotient_pos by done.
  rewrite bucket_count_rehashed in *.
  rewrite entry_count_rehashed, max_load_factor_rehashed.
  apply min_required_enough; [done|lia..].
Qed.




(** *** The threshold *)



Lemma load_factor_gt_zero t :
  0 < bucket_count t → 0 < entry_count t →
  fgt (load_factor t) 0 = true.
Proof.
  intros Hb He. rewrite load_factor_pos by done. simpl.
  unfold Qlt_bool. apply negb_true_iff.
  destruct (Qle_bool _ 0) eqn:E; [|done].
  apply Qle_bool_iff in E. exfalso. revert E. apply Qlt_not_le.
  apply round_twice_gt0.
  apply Qlt_shift_div_l; [by apply of_size_t_pos|].
  rewrite Qmult_0_l. by apply of_size_t_pos.
Qed.

Lemma rehash_divides_by_zero count t :
  0 < entry_count t → max_load_factor t = 0%Q →
  rehash count t = Undefined float_to_size_t.
Proof.
  intros He Hm. unfold rehash. run. rewrite Hm. unfold fdiv. simpl.
  by rewrite Qeq_bool_pos by by apply of_size_t_pos.
Qed.

(** X17.  [set_max_load_factor] does not check its argument as the
    constructor does.  A threshold of zero on a table with an entry makes
    the call convert an infinite quotient to [size_t], which is
    undefined; on a table without entries the call succeeds, and the next
    insertion of any key is undefined in the same way. *)
Theorem zero_threshold t :
  wf t → 0 < bucket_count t →
  (0 < size t → set_max_load_factor 0 t = Undefined float_to_size_t)
  ∧ (size t = 0 →
       set_max_load_factor 0 t = Ok (tt, with_max_load_factor 0 t)
       ∧ ∀ k v, insert k v (with_max_load_factor 0 t)
                = Undefined float_to_size_t).
Proof.
  intros Hwf Hb. pose proof (wf_length t Hwf) as Hl. unfold size. split.
  - intros He. unfold set_max_load_factor. run.
    fold (with_max_load_factor 0 t).
    rewrite (load_factor_gt_zero (with_max_load_factor 0 t)) by done.
    by apply rehash_divides_by_zero.
  - intros He. split.
    + unfold set_max_load_factor. run.
      fold (with_max_load_factor 0 t).
      rewrite load_factor_pos by done. simpl.
      unfold Qlt_bool. rewrite (proj2 (Qle_bool_iff _ _)); [done|].
      apply round_twice_le; [by apply load_nonneg| |apply is_float_0].
      rewrite He. unfold Qdiv. by rewrite Qmult_0_l.
    + intros k v.
      assert (list_find (λ e, key e = k) (home k t) = None) as Hf.
      { apply find_home_None; [done..|]. intros e Hin.
        assert (entries t = []) as Hnil
          by (apply nil_length_inv; by rewrite <-(wf_count t Hwf)).
        rewrite Hnil in Hin. by apply elem_of_nil in Hin. }
      rewrite insert_absent by done. simpl.
      rewrite (load_factor_gt_zero (appended k v _)) by (simpl; lia).
      apply rehash_divides_by_zero; [simpl; lia|done].
Qed.

(** *** Moves *)

Lemma zero_buckets_undefined this k v t :
  bucket_count t = 0 →
  bucket k t = Undefined division_by_zero
  ∧ insert k v t = Undefined division_by_zero
  ∧ subscript k t = Undefined division_by_zero
  ∧ at_ k t = Undefined division_by_zero
  ∧ at_const k t = Undefined division_by_zero
  ∧ contains k t = Undefined division_by_zero
  ∧ count k t = Undefined division_by_zero
  ∧ find this k t = Undefined division_by_zero
  ∧ erase k t = Undefined division_by_zero.
Proof.
  intros Hb.
  unfold bucket, insert, subscript, at_, at_const, contains, count, find,
    erase, find_entry.
  run. rewrite (hash_func_zero k t Hb). by split_and!.
Qed.

(** X18.  The move constructor and the move assignment give the
    destination every field of the source, the threshold included, and
    leave the source with no bucket: its size is zero, its load factor is
    not a number, [begin()] is [end()], and every call that hashes a key
    divides by zero.  A table assigned to itself stays as it is. *)
Theorem move_takes_everything other :
  (HashMap_move other).1 = other
  ∧ (∀ this that left_over t, this ≠ that →
       ∃ old, move_assign this that other left_over t = Ok (old, other))
  ∧ (∀ this left_over,
       move_assign this this other left_over other = Ok (other, other))
  ∧ ∀ old,
      (old = (HashMap_move other).2
       ∨ ∃ this that left_over t,
           this ≠ that
           ∧ move_assign this that other left_over t = Ok (old, other)) →
      size old = 0 ∧ empty old = true ∧ get_bucket_count old = 0
      ∧ get_max_load_factor old = get_max_load_factor other
      ∧ load_factor old = NaN
      ∧ (∀ this, begin this old = Ok (end_ this old))
      ∧ ∀ this k v,
          bucket k old = Undefined division_by_zero
          ∧ insert k v old = Undefined division_by_zero
          ∧ subscript k old = Undefined division_by_zero
          ∧ at_ k old = Undefined division_by_zero
          ∧ at_const k old = Undefined division_by_zero
          ∧ contains k old = Undefined division_by_zero
          ∧ count k old = Undefined division_by_zero
          ∧ find this k old = Undefined division_by_zero
          ∧ erase k old = Undefined division_by_zero.
Proof.
  assert (∀ this that left_over t, this ≠ that →
    move_assign this that other left_over t
    = Ok (mkHashMap left_over 0 0 (max_load_factor other), other)) as Hrun.
  { intros this that lo t Hne. unfold move_assign.
    rewrite bool_decide_false by done. run. by destruct other. }
  split_and!.
  - by destruct other.
  - intros this that lo t Hne. rewrite Hrun by done. eauto.
  - intros this lo. unfold move_assign. by rewrite bool_decide_true.
  - intros old Hold.
    assert (∃ bs, old = mkHashMap bs 0 0 (max_load_factor other))
      as [bs ->].
    { destruct Hold as [->|(this & that & lo & t & Hne & Hm)]; [by eexists|].
      rewrite Hrun in Hm by done. injection Hm as <-. by eexists. }
    split_and!; [done..|].
    intros this k v. by apply zero_buckets_undefined.
Qed.

(** *** Copies *)

Lemma wf_same_buckets t t' :
  wf t → buckets t' = buckets t → bucket_count t' = bucket_count t →
  entry_count t' = entry_count t → (0 < max_load_factor t')%Q → wf t'.
Proof.
  intros [] Hbs Hbc Hec Hm. split; unfold entries; rewrite ?Hbs, ?Hbc, ?Hec;
    done.
Qed.

Lemma same_buckets_answer_alike k t t' :
  wf t → wf t' → buckets t' = buckets t → 0 < bucket_count t →
  bucket_count t' = bucket_count t →
  at_const k t' = at_const k t ∧ contains k t' = contains k t
  ∧ count k t' = count k t.
Proof.
  intros Hwf Hwf' Hbs Hb Hbc. apply lookup_ext; [done..|lia|].
  intros e _. unfold entries. by rewrite Hbs.
Qed.

(** X19.  A copy, made by the copy constructor or by the copy assignment
    to another table, is well formed, holds the entries of the source in
    the buckets of the source, and answers every lookup as the source
    does. *)
Theorem copy_answers_alike other :
  wf other →
  (∃ c, HashMap_copy other = Ok c ∧ wf c
        ∧ buckets c = buckets other
        ∧ entries c = entries other ∧ size c = size other
        ∧ (0 < bucket_count other →
             ∀ k, at_const k c = at_const k other
                  ∧ contains k c = contains k other
                  ∧ count k c = count k other))
  ∧ (∀ this that t, wf t → this ≠ that →
       ∃ t', copy_assign this that other t = Ok (tt, t') ∧ wf t'
             ∧ buckets t' = buckets other
             ∧ entries t' = entries other ∧ size t' = size other
             ∧ (0 < bucket_count other →
                  ∀ k, at_const k t' = at_const k other
                       ∧ contains k t' = contains k other
                       ∧ count k t' = count k other)).
Proof.
  intros Hwf. pose proof (wf_length other Hwf) as Hl. split.
  - rewrite HashMap_copy_ok by done. eexists. split; [reflexivity|].
    set (c := mkHashMap _ _ _ _).
    assert (wf c) as Hwfc by by apply (wf_same_buckets other).
    split_and!; [done..|]. intros Hb k.
    by apply same_buckets_answer_alike.
  - intros this that t Hwft Hne.
    rewrite copy_assign_ok by done. eexists. split; [reflexivity|].
    set (c := mkHashMap _ _ _ _).
    assert (wf c) as Hwfc.
    { apply (wf_same_buckets other); [done..|]. exact (wf_mlf t Hwft). }
    split_and!; [done..|]. intros Hb k.
    by apply same_buckets_answer_alike.
Qed.

(** *** Sequences of calls *)

Lemma load_factor_le_max_fewer t t' :
  bucket_count t' = bucket_count t →
  max_load_factor t' = max_load_factor t →
  entry_count t' ≤ entry_count t → 0 < bucket_count t →
  load_factor_le_max t → load_factor_le_max t'.
Proof.
  intros Hbc Hm Hec Hb. unfold load_factor_le_max.
  rewrite !load_factor_pos by lia. rewrite Hm. intros Hload.
  eapply Qle_trans; [|exact Hload].
  apply round_twice_mono; [apply load_nonneg; lia|].
  rewrite Hbc. unfold Qdiv. apply Qmult_le_compat_r.
  - unfold of_size_t. rewrite <-Zle_Qle. lia.
  - apply Qinv_le_0_compat, of_size_t_nonneg.
Qed.

(** One call of a member function that changes the table, on a table that
    is well formed, has a bucket, a threshold that is a float and a load
    factor at or below it: the call returns and leaves such a table. *)
Lemma apply_mutation_ok this c t :
  wf t → 0 < bucket_count t → is_float (max_load_factor t) →
  load_factor_le_max t → sound_call c →
  ∃ t', apply_mutation this c t = Ok (tt, t') ∧ wf t'
        ∧ 0 < bucket_count t' ∧ is_float (max_load_factor t')
        ∧ load_factor_le_max t'.
Proof.
  intros Hwf Hb Hfl Hload Hc. pose proof (wf_length t Hwf) as Hl.
  destruct c as [k v|k|k|pos| |count|ml]; simpl in *.
  - exists (inserted k v t). split_and!.
    + by apply insert_ok.
    + by apply wf_inserted.
    + by apply bucket_count_inserted.
    + by rewrite max_load_factor_inserted.
    + by apply load_factor_le_max_inserted.
  - run.
    destruct (list_find (λ e, key e = k) (home k t)) as [[i e0]|] eqn:Hf.
    + rewrite (subscript_present k t i e0) by done. by exists t.
    + rewrite subscript_absent, insert_ok by done.
      exists (inserted k value_init t). split_and!.
      * done.
      * by apply wf_inserted.
      * by apply bucket_count_inserted.
      * by rewrite max_load_factor_inserted.
      * by apply load_factor_le_max_inserted.
  - run. rewrite erase_ok by done.
    destruct (list_find (λ e, key e = k) (home k t)) as [[i e0]|] eqn:Hf;
      [|by exists t].
    destruct (erased_found k t i e0 Hwf Hb Hf) as (Hwf' & Hb' & _ & Hc' & _).
    eexists. split; [reflexivity|]. split_and!; [done|lia|done|].
    apply (load_factor_le_max_fewer t); [done..|lia|done|done].
  - run.
    destruct (erase_pos_cases this pos t Hwf)
      as [[_ (next & t' & -> & Hc' & Hwf' & Hb' & Hm')]|[_ ->]];
      [|by exists t].
    exists t'. split_and!; [done..|lia|by rewrite Hm'|].
    apply (load_factor_le_max_fewer t); [done..|lia|done|done].
  - eexists. split; [reflexivity|]. split_and!.
    + by apply wf_cleared.
    + done.
    + done.
    + apply load_factor_le_max_no_entry; [done| |done].
      exact (wf_mlf t Hwf).
  - exists (rehashed count t).
    assert (0 < bucket_count (rehashed count t)) as Hb'
      by (rewrite bucket_count_rehashed; lia).
    split_and!.
    + apply rehash_ok; [exact (wf_mlf t Hwf)|exact (wf_count t Hwf)].
    + by apply wf_rehashed.
    + done.
    + by rewrite max_load_factor_rehashed.
    + apply load_factor_le_max_exact;
        [done|by rewrite max_load_factor_rehashed|].
      apply load_le_max_rehashed; [exact (wf_mlf t Hwf)|done].
  - destruct Hc as [Hml Hfml]. exists (reloaded ml t). split_and!.
    + by apply set_max_load_factor_ok.
    + by apply wf_reloaded.
    + by apply bucket_count_reloaded.
    + by rewrite max_load_factor_reloaded.
    + by apply load_factor_le_max_reloaded.
Qed.

Lemma apply_mutations_ok this cs : ∀ t,
  wf t → 0 < bucket_count t → is_float (max_load_factor t) →
  load_factor_le_max t → Forall sound_call cs →
  ∃ t', for_each cs (apply_mutation this) t = Ok (tt, t') ∧ wf t'
        ∧ 0 < bucket_count t' ∧ load_factor_le_max t'.
Proof.
  induction cs as [|c cs IH]; intros t Hwf Hb Hfl Hload Hcs.
  { by exists t. }
  apply Forall_cons in Hcs as [Hc Hcs].
  destruct (apply_mutation_ok this c t Hwf Hb Hfl Hload Hc)
    as (t1 & Hrun & Hwf1 & Hb1 & Hfl1 & Hload1).
  destruct (IH t1 Hwf1 Hb1 Hfl1 Hload1 Hcs) as (t' & Hrun' & ?).
  exists t'. split; [|done]. simpl. run. by rewrite Hrun.
Qed.

(** X20.  Any sequence of calls of [insert], [operator[]], [erase] by key
    and by cursor, [clear], [rehash] with a positive count and
    [set_max_load_factor] with a threshold that is a positive float, on a
    table built by the default constructor or from a capacity, that at no
    step has more buckets than a [size_t] counts: every call returns, and
    the table that is left is well formed, so that its keys are unique,
    [size()] is the number of its entries and every entry lies in the
    bucket of its key; it has a bucket, the float [load_factor()] returns
    is at most its threshold, and the quotient
    [entry_count / bucket_count] is at most every float above the
    threshold. *)
Theorem any_calls_keep_invariants this cs t0 :
  constructed t0 → is_float (max_load_factor t0) → Forall sound_call cs →
  within_size_t (apply_mutation this) cs t0 →
  ∃ t, for_each cs (apply_mutation this) t0 = Ok (tt, t) ∧ wf t
       ∧ 0 < get_bucket_count t
       ∧ load_factor_le_max t ∧ load_below_floats_above_max t
       ∧ size t = length (entries t) ∧ NoDup (key <$> entries t).
Proof.
  intros (cap & mlf & Hc & Hm & ->)%constructed_empty_table Hfl Hcs _.
  destruct (apply_mutations_ok this cs (empty_table cap mlf))
    as (t & Hrun & Hwf & Hb & Hload); [|done|done| |done|].
  - by apply wf_empty_table.
  - by apply load_factor_le_max_no_entry.
  - exists t. split_and!; [done..| | |].
    + apply load_factor_le_max_near; [done|exact (wf_mlf t Hwf)|done].
    + exact (wf_count t Hwf).
    + exact (wf_unique t Hwf).
Qed.

(** *** The order [erase] leaves *)

Lemma NoDup_bucket t i b :
  NoDup (key <$> entries t) → buckets t !! i = Some b → NoDup (key <$> b).
Proof.
  intros Hnd Hb. rewrite (entries_split t i b Hb), !fmap_app in Hnd.
  apply NoDup_app in Hnd as (_ & _ & Hnd).
  by apply NoDup_app in Hnd as (Hnd & _).
Qed.

(** X21.  [erase] fills the place of the entry it removes with the last
    entry of the same bucket, and drops the last place: the entries of
    the bucket before and after that place, and all the other buckets,
    stay as they are, and the last entry changes its position unless it
    is the one that is removed. *)
Theorem erase_moves_last_into_place k t b x i e :
  wf t → 0 < bucket_count t →
  home k t = b ++ [x] → (b ++ [x]) !! i = Some e → key e = k →
  ∃ t', erase k t = Ok (1, t')
        ∧ buckets t'
          = <[hash k mod bucket_count t :=
                if decide (i = length b) then b else <[i := x]> b]>
              (buckets t)
        ∧ size t' + 1 = size t.
Proof.
  intros Hwf Hb Hhome Hi Hk. pose proof (wf_length t Hwf) as Hl.
  pose proof (home_lookup k t Hl Hb) as Hlook.
  assert (e ∈ entries t) as He.
  { apply (home_elem_of k); [done..|]. rewrite Hhome.
    by eapply list_elem_of_lookup_2. }
  destruct (proj2 (find_home_Some k e t Hwf Hb) (conj He Hk)) as [i' Hf].
  assert (i' = i) as ->.
  { apply list_find_Some in Hf as (Hi' & _ & _). rewrite Hhome in Hi'.
    apply (NoDup_lookup (key <$> (b ++ [x])) _ _ k).
    - rewrite <-Hhome. eapply NoDup_bucket; [apply wf_unique|]; done.
    - rewrite list_lookup_fmap, Hi'. simpl. by rewrite Hk.
    - rewrite list_lookup_fmap, Hi. simpl. by rewrite Hk. }
  destruct (erased_found k t i e Hwf Hb Hf) as (_ & _ & _ & Hc & _).
  rewrite erase_ok, Hf by done. eexists. split; [reflexivity|].
  split; [|done]. unfold erased. simpl. rewrite Hlook. simpl.
  rewrite Hhome, swap_pop_snoc; [done|].
  apply lookup_lt_Some in Hi. rewrite length_app in Hi. simpl in Hi. lia.
Qed.

End Further.

(** ** The further properties on concrete tables *)


Lemma clear_empties_witness :
  wf crowded
  ∧ ∃ t', clear crowded = Ok (tt, t') ∧ entries t' = [] ∧ size t' = 0
          ∧ get_bucket_count t' = 2.
Proof.
  split; [exact wf_crowded|].
  destruct (clear_empties crowded wf_crowded)
    as (t' & ? & _ & ? & ? & _ & ? & _).
  by exists t'.
Defined.

Lemma full_traversal_witness :
  wf crowded
  ∧ ∃ first, begin 0 crowded = Ok first
             ∧ advance crowded (size crowded) first = Ok (end_ 0 crowded).
Proof.
  split; [exact wf_crowded|].
  destruct (full_traversal 0 crowded wf_crowded) as (first & ? & _ & ? & _).
  by exists first.
Defined.

Lemma find_cursor_witness :
  wf crowded ∧ 0 < bucket_count crowded
  ∧ ∃ it, find 0 2 crowded = Ok (it, crowded)
          ∧ Iterator_deref crowded it = Ok (mkEntry 2 3).
Proof.
  assert (0 < bucket_count crowded) as H2 by (simpl; lia).
  split; [exact wf_crowded|split; [exact H2|]].
  destruct (find_cursor 0 2 crowded wf_crowded H2) as (it & ? & _ & Hp).
  exists it. split; [done|].
  apply Hp; [|done]. apply elem_of_entries.
  exists 0, [mkEntry 0 1; mkEntry 2 3; mkEntry 4 5]. split; [done|].
  apply list_elem_of_further, list_elem_of_here.
Defined.

Lemma count_counts_witness :
  wf crowded ∧ 0 < bucket_count crowded
  ∧ count 4 crowded
    = Ok (length (filter (λ e, key e = 4) (entries crowded))).
Proof.
  assert (0 < bucket_count crowded) as H2 by (simpl; lia).
  split; [exact wf_crowded|split; [exact H2|]].
  by destruct (count_counts 4 crowded wf_crowded H2) as (? & _).
Defined.




Lemma erase_at_found_cursor_witness :
  wf crowded ∧ 0 < bucket_count crowded
  ∧ ∃ it next n t',
      find 0 4 crowded = Ok (it, crowded)
      ∧ erase_pos 0 it crowded = Ok (next, t')
      ∧ erase 4 crowded = Ok (n, t').
Proof.
  assert (0 < bucket_count crowded) as H2 by (simpl; lia).
  split; [exact wf_crowded|split; [exact H2|]].
  destruct (erase_at_found_cursor 0 4 crowded wf_crowded H2)
    as (it & next & n & t' & ? & ? & ? & _).
  by exists it, next, n, t'.
Defined.

Lemma erase_pos_total_witness :
  wf lonely
  ∧ ((mkIterator (Some 0) 1 0 ∈ cursors 0 lonely
      ∧ (∃ next t',
           erase_pos 0 (mkIterator (Some 0) 1 0) lonely = Ok (next, t')
           ∧ size t' + 1 = size lonely ∧ wf t'
           ∧ get_bucket_count t' = get_bucket_count lonely))
     ∨ ((mkIterator (Some 0) 1 0 ∉ cursors 0 lonely)
        ∧ erase_pos 0 (mkIterator (Some 0) 1 0) lonely
          = Ok (end_ 0 lonely, lonely))).
Proof.
  split; [exact wf_lonely|].
  exact (erase_pos_total 0 (mkIterator (Some 0) 1 0) lonely wf_lonely).
Defined.

Lemma erase_front_empties_witness :
  wf crowded ∧ 4 ≤ size crowded
  ∧ ∃ it t', erase_front 0 4 crowded = Ok (it, t')
             ∧ it = end_ 0 t' ∧ entries t' = [].
Proof.
  assert (4 ≤ size crowded) as H2 by (simpl; lia).
  split; [exact wf_crowded|split; [exact H2|]].
  destruct (erase_front_empties 0 4 crowded wf_crowded H2)
    as (it & t' & ? & _ & _ & _ & _ & Hlast).
  destruct (Hlast eq_refl) as (? & ? & _).
  by exists it, t'.
Defined.

Lemma bucket_contents_witness :
  wf crowded
  ∧ sum_list (length <$> buckets crowded) = size crowded
  ∧ bucket_size 2 crowded
    = Throw (out_of_range "HashMap::bucket_size: bucket index out of range").
Proof.
  split; [exact wf_crowded|].
  destruct (bucket_contents crowded wf_crowded) as (_ & ? & _ & Hout).
  split; [done|].
  destruct (Hout 2 0) as (? & _); [simpl; lia|done].
Defined.




Lemma zero_threshold_witness :
  wf crowded ∧ 0 < bucket_count crowded
  ∧ (0 < size crowded →
       set_max_load_factor 0 crowded = Undefined float_to_size_t).
Proof.
  assert (0 < bucket_count crowded) as H2 by (simpl; lia).
  split; [exact wf_crowded|split; [exact H2|]].
  by destruct (zero_threshold crowded wf_crowded H2) as (? & _).
Defined.

Lemma copy_answers_alike_witness :
  wf crowded
  ∧ ∃ c, HashMap_copy crowded = Ok c ∧ wf c
         ∧ entries c = entries crowded.
Proof.
  split; [exact wf_crowded|].
  destruct (copy_answers_alike crowded wf_crowded)
    as ((c & ? & ? & _ & ? & _) & _).
  by exists c.
Defined.

Lemma any_calls_keep_invariants_witness :
  constructed (@HashMap_default nat nat)
  ∧ is_float (max_load_factor (@HashMap_default nat nat))
  ∧ Forall sound_call seven_calls
  ∧ within_size_t (apply_mutation 0) seven_calls HashMap_default
  ∧ ∃ t, for_each seven_calls (apply_mutation 0) HashMap_default
         = Ok (tt, t)
         ∧ wf t ∧ 0 < get_bucket_count t ∧ load_factor_le_max t.
Proof.
  assert (constructed (@HashMap_default nat nat)) as H1 by (by left).
  assert (is_float (max_load_factor (@HashMap_default nat nat))) as H2
    by (by vm_compute).
  assert (Forall sound_call seven_calls) as H3.
  { repeat constructor; try (simpl; lia); by vm_compute. }
  assert (within_size_t (apply_mutation 0) seven_calls HashMap_default)
    as H4 by (lazy; repeat split; intros H; discriminate H).
  split; [exact H1|split; [exact H2|split; [exact H3|split; [exact H4|]]]].
  destruct (any_calls_keep_invariants 0 seven_calls _ H1 H2 H3 H4)
    as (t & ? & ? & ? & ? & _).
  exists t. split_and!; assumption.
Defined.

Lemma erase_moves_last_into_place_witness :
  wf crowded ∧ 0 < bucket_count crowded
  ∧ home 0 crowded = [mkEntry 0 1; mkEntry 2 3] ++ [mkEntry 4 5]
  ∧ ([mkEntry 0 1; mkEntry 2 3] ++ [mkEntry 4 5]) !! 0 = Some (mkEntry 0 1)
  ∧ key (mkEntry 0 1) = 0
  ∧ ∃ t', erase 0 crowded = Ok (1, t')
          ∧ buckets t' = [[mkEntry 4 5; mkEntry 2 3]; [mkEntry 1 7]].
Proof.
  assert (0 < bucket_count crowded) as H2 by (simpl; lia).
  assert (home 0 crowded = [mkEntry 0 1; mkEntry 2 3] ++ [mkEntry 4 5])
    as H3 by reflexivity.
  assert (([mkEntry 0 1; mkEntry 2 3] ++ [mkEntry 4 5]) !! 0
          = Some (mkEntry 0 1)) as H4 by reflexivity.
  assert (key (mkEntry 0 1) = 0) as H5 by reflexivity.
  split_and!; [exact wf_crowded|exact H2|exact H3|exact H4|exact H5|].
  destruct (erase_moves_last_into_place 0 crowded _ _ 0 _
              wf_crowded H2 H3 H4 H5) as (t' & ? & Hbs & _).
  exists t'. split; [done|]. by rewrite Hbs.
Defined.
